(** * LightLog: the Python logger facade and the print-capture decorator

    A shallow embedding of [src/lightlog/pylightlog.py] (class [Logger]) and
    [src/lightlog/decorator.py] ([log_prints]).

    - Python [str] values are sequences of Unicode code points.
    - The native base class [CppLogger] is not part of the Python sources; a
      [Logger] records the calls it makes to its base class, in order.
    - [sys.stdout] is one process-wide slot, threaded explicitly.
    - Objects with identity (loggers, classes) live in stores keyed by their
      identity. *)

From Stdlib Require Import ZArith NArith Ascii String DecimalString.
From stdpp Require Import base option list gmap.

Local Open Scope Z_scope.

(** ** Python strings *)

Module PyStr.

  (** A code point. *)
Definition char := N.

  (** A Python [str]. *)
Definition pystr := list char.

  (** A literal written with ASCII characters only. *)
Fixpoint lit (s : String.string) : pystr :=
    match s with
    | EmptyString => []
    | String a s' => N_of_ascii a :: lit s'
    end.

Definition LF : char := 10%N.
Definition CR : char := 13%N.

Definition is_LF (c : char) : bool := N.eqb c LF.
Definition is_CR (c : char) : bool := N.eqb c CR.

  (** The line boundaries of [str.splitlines]: \n \r \v \f \x1c \x1d \x1e
      \x85     (and the pair \r\n, handled by the splitter). *)
Definition is_linebreak (c : char) : bool :=
    N.eqb c 10 || N.eqb c 11 || N.eqb c 12 || N.eqb c 13
    || N.eqb c 28 || N.eqb c 29 || N.eqb c 30
    || N.eqb c 133 || N.eqb c 8232 || N.eqb c 8233.

  (** Truthiness of a [str]: non-empty. *)
Definition truthy (s : pystr) : bool :=
    match s with [] => false | _ => true end.

  (** [s.endswith('\n')]. *)
Definition endswith_LF (s : pystr) : bool :=
    match last s with
    | Some c => is_LF c
    | None => false
    end.

  (** [str.splitlines(keepends=True)], scanning left to right; [acc] is the
      line being assembled. *)
Fixpoint splitlines_from (acc : pystr) (s : pystr) : list pystr :=
    match s with
    | [] => match acc with [] => [] | _ => [acc] end
    | c :: rest =>
        if is_CR c then
          match rest with
          | d :: rest' =>
              if is_LF d then (acc ++ [c; d]) :: splitlines_from [] rest'
              else (acc ++ [c]) :: splitlines_from [] rest
          | [] => [acc ++ [c]]
          end
        else if is_linebreak c then (acc ++ [c]) :: splitlines_from [] rest
        else splitlines_from (acc ++ [c]) rest
    end.

Definition splitlines (s : pystr) : list pystr := splitlines_from [] s.

  (** [sep.join(parts)]. *)
Fixpoint join (sep : pystr) (parts : list pystr) : pystr :=
    match parts with
    | [] => []
    | [p] => p
    | p :: ps => p ++ sep ++ join sep ps
    end.

End PyStr.

Import PyStr.

(** ** Truthiness and the [or] operator *)

(** Python's truth-value protocol for the values that occur here. *)
Class Truthy (A : Type) := truth : A -> bool.

#[global] Instance truthy_bool : Truthy bool := fun b => b.
#[global] Instance truthy_int : Truthy Z := fun z => negb (z =? 0).
#[global] Instance truthy_str : Truthy pystr := PyStr.truthy.
#[global] Instance truthy_optional {A} `{Truthy A} : Truthy (option A) :=
  fun o => match o with Some a => truth a | None => false end.

(** [x or y] for operands of one type. *)
Definition py_or {A} `{Truthy A} (x y : A) : A := if truth x then x else y.

(** [x or d] where [x] may be [None] and [d] is a plain value. *)
Definition or_default {A} `{Truthy A} (x : option A) (d : A) : A :=
  match x with
  | Some a => if truth a then a else d
  | None => d
  end.

(** ** [os.path] *)

(** [os.path.abspath] depends on the working directory of the process; it is
    an interface of the environment. *)
Class OsPath := { abspath : pystr -> pystr }.

(** [os_path.abspath(p) if p else ''] *)
Definition abspath_or_empty `{OsPath} (p : option pystr) : pystr :=
  match p with
  | Some s => if truth s then abspath s else []
  | None => []
  end.

(** ** Severity levels *)

(** Modelled from the spec: the module [levelsvalue] is not among the sources;
    the spec gives DEBUG=10, INFO=20, WARNING=30, ERROR=40, CRITICAL=50 and
    NOTSET=-1 (the facade itself passes the literal [-1] in [flush]). *)
Module Levels.
Definition NOTSET : Z := -1.
Definition DEBUG : Z := 10.
Definition INFO : Z := 20.
Definition WARNING : Z := 30.
Definition ERROR : Z := 40.
Definition CRITICAL : Z := 50.
End Levels.

Import Levels.

(** ** Values, exceptions, outcomes *)

Inductive pyval :=
  | PyNone
  | PyInt (z : Z)
  | PyStr (s : pystr).

(** [str(v)] *)
Definition py_str (v : pyval) : pystr :=
  match v with
  | PyNone => lit "None"
  | PyInt z => lit (NilZero.string_of_int (Z.to_int z))
  | PyStr s => s
  end.

Inductive exn :=
  | IndexError
  | AttributeError
  | TypeError
  | ValueError
  | RecursionError
  | ReferenceError
  | UserError (n : nat).

Inductive outcome (A : Type) :=
  | Returns (a : A)
  | Raises (e : exn).
Arguments Returns {A} a.
Arguments Raises {A} e.

(** ** The console-output target *)

(** What [sys.stdout] may refer to: a [Logger] object, or some other
    file-like object (the terminal, a file, ...), both by identity. *)
Inductive stream :=
  | Console (n : nat)
  | LoggerStream (id : nat).

#[global] Instance stream_eq_dec : EqDecision stream.
Proof. solve_decision. Defined.

(** ** The native base class, seen from the facade *)

(** The nine constructor / [reconfigure] arguments of [CppLogger]. *)
Record CoreConfig := {
  c_name : option pystr;
  c_file_path : pystr;
  c_mode : pystr;
  c_level : Z;
  c_use_rank : bool;
  c_rank : Z;
  c_world_size : Z;
  c_auto_detect_env : pystr;
  c_log_rank : Z
}.

(** One call through [super()]. An argument the facade omits is [None]. *)
Inductive CoreCall :=
  | CppInit (cfg : CoreConfig)
  | CppLog (message : pystr) (level : Z) (use_rank : bool)
           (new_file_path : option pystr)
  | CppFlush
  | CppReconfigure (cfg : CoreConfig)
  | CppClose.

(** ** The [Logger] object *)

Record Logger := {
  ident : nat;                     (* identity of the object *)
  original_stdout : stream;
  use_rank : bool;
  name : option pystr;
  file_path : pystr;
  mode : pystr;
  level : Z;
  rank : Z;
  world_size : Z;
  auto_detect_env : pystr;
  _buffer : pystr;
  log_rank : Z;
  core : list CoreCall             (* calls to the base class, oldest first *)
}.

(** The configuration a [Logger] hands to its base class. *)
Definition core_config (l : Logger) : CoreConfig :=
  {| c_name := name l; c_file_path := file_path l; c_mode := mode l;
     c_level := level l; c_use_rank := use_rank l; c_rank := rank l;
     c_world_size := world_size l;
     c_auto_detect_env := auto_detect_env l; c_log_rank := log_rank l |}.

Definition set_buffer (b : pystr) (l : Logger) : Logger :=
  {| ident := ident l; original_stdout := original_stdout l;
     use_rank := use_rank l; name := name l; file_path := file_path l;
     mode := mode l; level := level l; rank := rank l;
     world_size := world_size l; auto_detect_env := auto_detect_env l;
     _buffer := b; log_rank := log_rank l; core := core l |}.

Definition super_call (c : CoreCall) (l : Logger) : Logger :=
  {| ident := ident l; original_stdout := original_stdout l;
     use_rank := use_rank l; name := name l; file_path := file_path l;
     mode := mode l; level := level l; rank := rank l;
     world_size := world_size l; auto_detect_env := auto_detect_env l;
     _buffer := _buffer l; log_rank := log_rank l; core := core l ++ [c] |}.

(** The interpreter state a method of one [Logger] can touch: the object
    itself and the process-wide [sys.stdout]. *)
Record State := { self : Logger; sys_stdout : stream }.

(** Methods: state passing with exceptions. *)
Definition M (A : Type) : Type := State -> outcome A * State.

Definition ret {A} (a : A) : M A := fun s => (Returns a, s).
Definition raise {A} (e : exn) : M A := fun s => (Raises e, s).
Definition bind {A B} (m : M A) (k : A -> M B) : M B :=
  fun s => match m s with
           | (Returns a, s') => k a s'
           | (Raises e, s') => (Raises e, s')
           end.

Declare Scope py_scope.
Delimit Scope py_scope with py.
Notation "x <- m ;; k" := (bind m (fun x => k))
  (at level 100, m at next level, k at level 200, right associativity)
  : py_scope.
Notation "m ;; k" := (bind m (fun _ => k))
  (at level 100, k at level 200, right associativity) : py_scope.
Local Open Scope py_scope.

Definition attr {A} (f : Logger -> A) : M A := fun s => (Returns (f (self s)), s).
Definition update (f : Logger -> Logger) : M unit :=
  fun s => (Returns tt, {| self := f (self s); sys_stdout := sys_stdout s |}).
Definition assign_stdout (t : stream) : M unit :=
  fun s => (Returns tt, {| self := self s; sys_stdout := t |}).

(** [lines.pop()] *)
Definition list_pop {A} (l : list A) : option (list A * A) :=
  match last l with
  | Some x => Some (removelast l, x)
  | None => None
  end.

(** ** Methods of [Logger] *)

(** Arguments of [Logger.__init__]. *)
Record InitArgs := {
  i_name : option pystr;
  i_file_path : option pystr;
  i_mode : pystr;
  i_level : Z;
  i_use_rank : bool;
  i_rank : option Z;
  i_world_size : option Z;
  i_auto_detect_env : option pystr;
  i_log_rank : option Z
}.

(** [Logger(name)]: every other parameter at its default. *)
Definition init_defaults (n : option pystr) : InitArgs :=
  {| i_name := n; i_file_path := None; i_mode := lit "a"; i_level := NOTSET;
     i_use_rank := false; i_rank := None; i_world_size := None;
     i_auto_detect_env := None; i_log_rank := None |}.

(** Arguments of [Logger.reconfigure]. *)
Record ReconfigureArgs := {
  r_name : option pystr;
  r_new_file_path : option pystr;
  r_mode : option pystr;
  r_level : option Z;
  r_use_rank : option bool;
  r_rank : option Z;
  r_world_size : option Z;
  r_auto_detect_env : option pystr;
  r_log_rank : option Z
}.

(** [reconfigure()]: every parameter at its default; [mode] defaults to
    ['a'], all others to [None]. *)
Definition reconfigure_defaults : ReconfigureArgs :=
  {| r_name := None; r_new_file_path := None; r_mode := Some (lit "a");
     r_level := None; r_use_rank := None; r_rank := None;
     r_world_size := None; r_auto_detect_env := None; r_log_rank := None |}.

Section Methods.
Context `{OsPath}.

  (** [Logger.__init__]; [id] is the identity of the new object and [out]
      the value of [sys.stdout] at the time of the call. *)
Definition Logger_init (id : nat) (a : InitArgs) (out : stream) : Logger :=
    let l :=
      {| ident := id;
         original_stdout := out;
         use_rank := i_use_rank a;
         name := i_name a;
         file_path := abspath_or_empty (i_file_path a);
         mode := i_mode a;
         level := i_level a;
         rank := or_default (i_rank a) (-1);
         world_size := or_default (i_world_size a) (-1);
         auto_detect_env := or_default (i_auto_detect_env a) (lit "all");
         _buffer := [];
         log_rank := or_default (i_log_rank a) (-1);
         core := [] |} in
    super_call (CppInit (core_config l)) l.

  (** The [for line in lines] loop of [write]; [new_file_path] is rebound in
      each iteration. *)
Fixpoint write_lines (lines : list pystr) (lvl : Z) (ur : bool)
      (new_file_path : option pystr) : M unit :=
    match lines with
    | [] => ret tt
    | line :: rest =>
        let new_file_path := abspath_or_empty new_file_path in
        self_ur <- attr use_rank ;;
        update (super_call
                  (CppLog line lvl (self_ur || ur) (Some new_file_path))) ;;
        write_lines rest lvl ur (Some new_file_path)
    end.

Definition write (message : pystr) (lvl : Z) (ur : bool)
      (new_file_path : option pystr) : M unit :=
    buf <- attr _buffer ;;
    update (set_buffer (buf ++ message)) ;;
    buf <- attr _buffer ;;
    let lines := splitlines buf in
    lines <- (if negb (endswith_LF buf) then
                match list_pop lines with
                | Some (lines', l) => update (set_buffer l) ;; ret lines'
                | None => raise IndexError
                end
              else update (set_buffer []) ;; ret lines) ;;
    write_lines lines lvl ur new_file_path.

Definition flush : M unit :=
    buf <- attr _buffer ;;
    (if truth buf then
       self_ur <- attr use_rank ;;
       update (super_call (CppLog buf (-1) self_ur None)) ;;
       update (set_buffer [])
     else ret tt) ;;
    update (super_call CppFlush).

  (** [sep] and [end] are typed [Optional[str]]: [None.join] is an
      [AttributeError], [str + None] a [TypeError]. *)
Definition log (args : list pyval) (sep end_ : option pystr) (lvl : Z)
      (ur : bool) (new_file_path : option pystr) : M unit :=
    match sep with
    | None => raise AttributeError
    | Some sep =>
        let joined := join sep (map py_str args) in
        match end_ with
        | None => raise TypeError
        | Some e =>
            let message := joined ++ e in
            let new_file_path := abspath_or_empty new_file_path in
            self_ur <- attr use_rank ;;
            update (super_call
                      (CppLog message lvl (self_ur || ur) (Some new_file_path)))
        end
    end.

  (** The assignments at the head of [reconfigure]. *)
Definition merge (a : ReconfigureArgs) (l : Logger) : Logger :=
    let use_rank' := or_default (r_use_rank a) (use_rank l) in
    let name' := py_or (r_name a) (name l) in
    let file_path' :=
      if truth (r_new_file_path a) then abspath_or_empty (r_new_file_path a)
      else file_path l in
    let mode' := or_default (r_mode a) (mode l) in
    let level' := or_default (r_level a) (level l) in
    let rank' := or_default (r_rank a) (rank l) in
    let world_size' := or_default (r_world_size a) (world_size l) in
    let auto_detect_env' :=
      or_default (r_auto_detect_env a) (auto_detect_env l) in
    let log_rank' := or_default (r_log_rank a) rank' in
    {| ident := ident l; original_stdout := original_stdout l;
       use_rank := use_rank'; name := name'; file_path := file_path';
       mode := mode'; level := level'; rank := rank';
       world_size := world_size'; auto_detect_env := auto_detect_env';
       _buffer := _buffer l; log_rank := log_rank'; core := core l |}.

Definition reconfigure (a : ReconfigureArgs) : M unit :=
    update (merge a) ;;
    flush ;;
    cfg <- attr core_config ;;
    update (super_call (CppReconfigure cfg)).

  (** The body shared by [info], [debug], [warning], [error], [critical]. *)
Definition log_at (lvl : Z) (args : list pyval) (sep end_ : option pystr)
      (ur : bool) (new_file_path : option pystr) : M unit :=
    let new_file_path := abspath_or_empty new_file_path in
    log args sep end_ lvl ur (Some new_file_path).

Definition info := log_at INFO.
Definition debug := log_at DEBUG.
Definition warning := log_at WARNING.
Definition error := log_at ERROR.
Definition critical := log_at CRITICAL.

Definition redirect_print : M unit :=
    flush ;;
    me <- attr ident ;;
    assign_stdout (LoggerStream me).

Definition reset_print : M unit :=
    flush ;;
    saved <- attr original_stdout ;;
    assign_stdout saved.

Definition close : M unit :=
    flush ;;
    reset_print ;;
    update (super_call CppClose).

  (** [Logger.__del__] *)
Definition Logger_del : M unit :=
    flush ;;
    close ;;
    reset_print.

  (** [Logger.__enter__]: returns [self]. *)
Definition Logger_enter : M nat :=
    redirect_print ;;
    attr ident.

  (** [Logger.__exit__]: returns [None], which is falsy, so an error raised in
      the [with] block is not suppressed. *)
Definition Logger_exit (exc : option exn) : M bool :=
    reset_print ;;
    ret false.

End Methods.

(** ** The native core, from its contract *)

(** What the core reads from the process environment. *)
Class CoreEnv := {
  (* rank and world size published by a launcher, per selector *)
  detect_rank : pystr -> option (Z * Z);
  (* the current time, rendered *)
  timestamp : pystr;
  (* the level name centred in an 8-character field *)
  level_field : Z -> pystr
}.

Module Core.
Section Contract.
Context `{CoreEnv}.

  (** Modelled from the spec: [CppLogger] is native code that is not among
      the sources. Rank and world size are resolved when both are given
      (>= 0); otherwise the launcher variables are consulted, and without
      them both stay unresolved. *)
Definition resolve (cfg : CoreConfig) : option (Z * Z) :=
    if (0 <=? c_rank cfg) && (0 <=? c_world_size cfg)
    then Some (c_rank cfg, c_world_size cfg)
    else detect_rank (c_auto_detect_env cfg).

Definition decimal (z : Z) : pystr := lit (NilZero.string_of_int (Z.to_int z)).

  (** Modelled from the spec: the prefix ["[<rank>/<world_size>] "], present
      when [use_rank] is true and rank and world size are resolved. *)
Definition rank_prefix (cfg : CoreConfig) (ur : bool) : pystr :=
    if ur then
      match resolve cfg with
      | Some (r, w) => lit "[" ++ decimal r ++ lit "/" ++ decimal w ++ lit "] "
      | None => []
      end
    else [].

  (** Modelled from the spec: the line the core's [log] produces for one
      message: verbatim at NOTSET, otherwise
      ["<timestamp> | <LEVEL> | <name> | <message>"], after the rank prefix. *)
Definition format_line (cfg : CoreConfig) (message : pystr) (lvl : Z)
      (ur : bool) : pystr :=
    rank_prefix cfg ur ++
    (if lvl =? NOTSET then message
     else timestamp ++ lit " | " ++ level_field lvl ++ lit " | "
          ++ default [] (c_name cfg) ++ lit " | " ++ message).

End Contract.

  (** Modelled from the spec: the file a [log] call is directed to is the one
      of the configuration in force (the constructor's, or that of the latest
      [reconfigure]); a non-empty [new_file_path] of the call names another
      file for that call. *)
Definition target (cfg : CoreConfig) (new_file_path : option pystr) : pystr :=
    match new_file_path with
    | Some p => if truth p then p else c_file_path cfg
    | None => c_file_path cfg
    end.

  (** Modelled from the spec: the (file, message) pairs of the [log] calls of
      a trace, [cfg] being the configuration in force at its start. *)
Fixpoint routed (cfg : CoreConfig) (calls : list CoreCall)
      : list (pystr * pystr) :=
    match calls with
    | [] => []
    | CppInit cfg' :: cs => routed cfg' cs
    | CppReconfigure cfg' :: cs => routed cfg' cs
    | CppLog m _ _ p :: cs => (target cfg p, m) :: routed cfg cs
    | CppFlush :: cs => routed cfg cs
    | CppClose :: cs => routed cfg cs
    end.

  (** The configuration in force after a trace. *)
Fixpoint config_after (cfg : CoreConfig) (calls : list CoreCall) : CoreConfig :=
    match calls with
    | [] => cfg
    | CppInit cfg' :: cs => config_after cfg' cs
    | CppReconfigure cfg' :: cs => config_after cfg' cs
    | _ :: cs => config_after cfg cs
    end.
End Core.

(** ** The process: [sys.stdout], the live [Logger] objects, the console *)

Record World := {
  stdout : stream;
  objects : gmap nat Logger;
  console : list (nat * pystr)     (* text written to non-Logger targets *)
}.

(** A method call [obj.m(...)] on the [Logger] with identity [id]. *)
Definition invoke {A} (id : nat) (m : M A) (w : World) : outcome A * World :=
  match objects w !! id with
  | Some l =>
      let '(r, st) := m {| self := l; sys_stdout := stdout w |} in
      (r, {| stdout := sys_stdout st;
             objects := <[id := self st]> (objects w);
             console := console w |})
  | None => (Raises ReferenceError, w)
  end.

(** ** decorator.py *)

(** The parameters of [log_prints], captured by the closures it returns. *)
Record LogPrints := {
  lp_name : option pystr;
  lp_file_path : option pystr;
  lp_mode : pystr;
  lp_level : Z;
  lp_use_rank : bool;
  lp_rank : option Z;
  lp_world_size : option Z;
  lp_auto_detect_env : option pystr;
  logger_instance : option nat
}.

(** Statements of a function body, as far as console output is concerned. *)
Inductive stmt :=
  | Print (s : pystr)          (* print(s) *)
  | SetStdout (t : stream)     (* sys.stdout = t *)
  | Raise (e : exn)
  | Return (v : pyval).

(** Objects a decorator can be applied to, or a class attribute can hold. *)
Inductive pyobj :=
  | Data (v : pyval)                       (* not callable *)
  | Function (body : list stmt)            (* inspect.isfunction *)
  | Method (body : list stmt)              (* inspect.ismethod *)
  | Class (c : nat)                        (* inspect.isclass, by identity *)
  | OtherCallable (n : nat)                (* callable, none of the above *)
  | Wrapper (lp : LogPrints) (obj : pyobj). (* the closure [wrapper] *)

Definition callable (o : pyobj) : bool :=
  match o with Data _ => false | _ => true end.

Definition isclass (o : pyobj) : bool :=
  match o with Class _ => true | _ => false end.

(** [wrapper] is defined with [def]: it is a function. *)
Definition isfunction (o : pyobj) : bool :=
  match o with Function _ | Wrapper _ _ => true | _ => false end.

Definition ismethod (o : pyobj) : bool :=
  match o with Method _ => true | _ => false end.

(** A class object: its bases and its own [__dict__], in insertion order. *)
Record PyClass := {
  bases : list nat;
  cls_dict : list (string * pyobj)
}.

(** [setattr(cls, k, v)] on the class's own dictionary. *)
Fixpoint dict_set (k : string) (v : pyobj) (d : list (string * pyobj))
    : list (string * pyobj) :=
  match d with
  | [] => [(k, v)]
  | (k', v') :: d' =>
      if decide (k = k') then (k, v) :: d' else (k', v') :: dict_set k v d'
  end.

Definition setattr (c : nat) (k : string) (v : pyobj)
    (h : gmap nat PyClass) : gmap nat PyClass :=
  match h !! c with
  | Some cls => <[c := {| bases := bases cls;
                          cls_dict := dict_set k v (cls_dict cls) |}]> h
  | None => h
  end.

(** The loop [for attr_name, attr_value in obj.__dict__.items()] of
    [decorator]: the view is live, so each item is read from the class as it
    is when the loop reaches position [i]. *)
Fixpoint decorate_items
    (dec : pyobj -> gmap nat PyClass -> outcome pyobj * gmap nat PyClass)
    (c : nat) (positions : list nat) (h : gmap nat PyClass)
    : outcome unit * gmap nat PyClass :=
  match positions with
  | [] => (Returns tt, h)
  | i :: rest =>
      match h !! c ≫= (fun cls => cls_dict cls !! i) with
      | Some (attr_name, attr_value) =>
          if callable attr_value then
            match dec attr_value h with
            | (Returns wrapped, h') =>
                decorate_items dec c rest (setattr c attr_name wrapped h')
            | (Raises e, h') => (Raises e, h')
            end
          else decorate_items dec c rest h
      | None => decorate_items dec c rest h
      end
  end.

(** [decorator(obj)]; [depth] is the interpreter's remaining recursion
    depth. *)
Fixpoint decorator (lp : LogPrints) (depth : nat) (obj : pyobj)
    (h : gmap nat PyClass) : outcome pyobj * gmap nat PyClass :=
  match depth with
  | O => (Raises RecursionError, h)
  | S depth' =>
      match obj with
      | Class c =>
          let n := match h !! c with
                   | Some cls => length (cls_dict cls)
                   | None => O
                   end in
          match decorate_items (decorator lp depth') c (seq 0 n) h with
          | (Returns _, h') => (Returns obj, h')
          | (Raises e, h') => (Raises e, h')
          end
      | _ =>
          if isfunction obj || ismethod obj
          then (Returns (Wrapper lp obj), h)
          else (Raises ValueError, h)
      end
  end.

Section Calls.
Context `{OsPath}.

  (** [sys.stdout.write(s)] *)
Definition stdout_write (s : pystr) (w : World) : outcome unit * World :=
    match stdout w with
    | LoggerStream id => invoke id (write s NOTSET false None) w
    | Console n =>
        (Returns tt, {| stdout := stdout w; objects := objects w;
                        console := console w ++ [(n, s)] |})
    end.

  (** [print(s)]: the text, then the line end. *)
Definition py_print (s : pystr) (w : World) : outcome unit * World :=
    match stdout_write s w with
    | (Returns _, w') => stdout_write [LF] w'
    | (Raises e, w') => (Raises e, w')
    end.

  (** Running a function body; falling off the end returns [None]. *)
Fixpoint exec (b : list stmt) (w : World) : outcome pyval * World :=
    match b with
    | [] => (Returns PyNone, w)
    | Print s :: b' =>
        match py_print s w with
        | (Returns _, w') => exec b' w'
        | (Raises e, w') => (Raises e, w')
        end
    | SetStdout t :: b' =>
        exec b' {| stdout := t; objects := objects w; console := console w |}
    | Raise e :: _ => (Raises e, w)
    | Return v :: _ => (Returns v, w)
    end.

  (** [get_logger()]: [logger_instance or Logger(...)]; a [Logger] object is
      truthy. A new object gets an unused identity. *)
Definition get_logger (lp : LogPrints) (w : World) : nat * World :=
    match logger_instance lp with
    | Some id => (id, w)
    | None =>
        let id := fresh (dom (objects w)) in
        let l := Logger_init id
                   {| i_name := lp_name lp; i_file_path := lp_file_path lp;
                      i_mode := lp_mode lp; i_level := lp_level lp;
                      i_use_rank := lp_use_rank lp; i_rank := lp_rank lp;
                      i_world_size := lp_world_size lp;
                      i_auto_detect_env := lp_auto_detect_env lp;
                      i_log_rank := None |}
                   (stdout w) in
        (id, {| stdout := stdout w; objects := <[id := l]> (objects w);
                console := console w |})
    end.

  (** [with logger: return body()] *)
Definition with_logger (logger : nat)
      (body : World -> outcome pyval * World) (w : World)
      : outcome pyval * World :=
    match invoke logger Logger_enter w with
    | (Raises e, w1) => (Raises e, w1)
    | (Returns _, w1) =>
        match body w1 with
        | (Returns v, w2) =>
            match invoke logger (Logger_exit None) w2 with
            | (Returns _, w3) => (Returns v, w3)
            | (Raises e, w3) => (Raises e, w3)
            end
        | (Raises e, w2) =>
            match invoke logger (Logger_exit (Some e)) w2 with
            | (Returns suppress, w3) =>
                if suppress then (Returns PyNone, w3) else (Raises e, w3)
            | (Raises e', w3) => (Raises e', w3)
            end
        end
    end.

  (** The closure [wrapper] around [obj]. *)
Definition wrapper (lp : LogPrints) (obj : World -> outcome pyval * World)
      (w : World) : outcome pyval * World :=
    let '(logger, w1) := get_logger lp w in
    with_logger logger obj w1.

  (** Calling an object with no arguments. *)
Fixpoint call (o : pyobj) (w : World) : outcome pyval * World :=
    match o with
    | Function b | Method b => exec b w
    | Wrapper lp obj => wrapper lp (call obj) w
    | _ => (Raises TypeError, w)
    end.

End Calls.

(** ** Vocabulary of the statements *)

(** The messages of the [log] calls of a trace. *)
Definition log_messages (calls : list CoreCall) : list pystr :=
  omap (fun c => match c with CppLog m _ _ _ => Some m | _ => None end) calls.

Definition add_calls (cs : list CoreCall) (l : Logger) : Logger :=
  {| ident := ident l; original_stdout := original_stdout l;
     use_rank := use_rank l; name := name l; file_path := file_path l;
     mode := mode l; level := level l; rank := rank l;
     world_size := world_size l; auto_detect_env := auto_detect_env l;
     _buffer := _buffer l; log_rank := log_rank l; core := core l ++ cs |}.

(** The [log] calls the loop of [write] makes for [lines]. *)
Fixpoint line_calls `{OsPath} (lines : list pystr) (lvl : Z) (ur : bool)
    (new_file_path : option pystr) : list CoreCall :=
  match lines with
  | [] => []
  | line :: rest =>
      let p := abspath_or_empty new_file_path in
      CppLog line lvl ur (Some p) :: line_calls rest lvl ur (Some p)
  end.

(** What [write] does with a buffer [t]: the pieces of [t.splitlines(True)]
    are passed on, except that the last piece is kept when [t] does not end
    in '\n'. *)
Definition kept_split (t : pystr) : list pystr * pystr :=
  if endswith_LF t then (splitlines t, [])
  else (removelast (splitlines t), default [] (last (splitlines t))).

(** A buffer content that a [write] of the empty string would keep whole. *)
Definition held (b : pystr) : Prop := kept_split b = ([], b).

(** The words of the claim about [write]: the newline-terminated lines of a
    text, and the fragment after the last newline. *)
Fixpoint newline_lines_from (acc : pystr) (s : pystr) : list pystr * pystr :=
  match s with
  | [] => ([], acc)
  | c :: rest =>
      if is_LF c then
        let '(ls, fragment) := newline_lines_from [] rest in
        ((acc ++ [c]) :: ls, fragment)
      else newline_lines_from (acc ++ [c]) rest
  end.

Definition newline_lines (s : pystr) : list pystr * pystr :=
  newline_lines_from [] s.

(** One call of [write]. *)
Record WriteCall := {
  w_message : pystr;
  w_level : Z;
  w_use_rank : bool;
  w_new_file_path : option pystr
}.

(** A sequence of [write] calls; an error raised by one call (the
    [IndexError] of an empty write on an empty buffer) is caught by the
    caller, who goes on writing. *)
Fixpoint writes `{OsPath} (calls : list WriteCall) (s : State) : State :=
  match calls with
  | [] => s
  | c :: cs =>
      writes cs (write (w_message c) (w_level c) (w_use_rank c)
                       (w_new_file_path c) s).2
  end.

(** The operations of a [Logger]. *)
Inductive op :=
  | OpWrite (c : WriteCall)
  | OpFlush
  | OpLog (lvl : Z) (args : list pyval) (sep end_ : option pystr) (ur : bool)
          (new_file_path : option pystr)
  | OpLogAt (lvl : Z) (args : list pyval) (sep end_ : option pystr) (ur : bool)
          (new_file_path : option pystr)
  | OpReconfigure (a : ReconfigureArgs)
  | OpRedirectPrint
  | OpResetPrint
  | OpClose
  | OpEnter
  | OpExit (exc : option exn)
  | OpAssignStdout (t : stream).   (* some other code assigns [sys.stdout] *)

(** The state after one operation, whether it returned or raised. *)
Definition step `{OsPath} (o : op) (s : State) : State :=
  match o with
  | OpWrite c =>
      (write (w_message c) (w_level c) (w_use_rank c) (w_new_file_path c) s).2
  | OpFlush => (flush s).2
  | OpLog lvl args sep e ur p => (log args sep e lvl ur p s).2
  | OpLogAt lvl args sep e ur p => (log_at lvl args sep e ur p s).2
  | OpReconfigure a => (reconfigure a s).2
  | OpRedirectPrint => (redirect_print s).2
  | OpResetPrint => (reset_print s).2
  | OpClose => (close s).2
  | OpEnter => (Logger_enter s).2
  | OpExit exc => (Logger_exit exc s).2
  | OpAssignStdout t => (assign_stdout t s).2
  end.

Definition steps `{OsPath} (ops : list op) (s : State) : State :=
  foldl (fun s o => step o s) s ops.

(** A working directory for concrete runs: the root, no normalisation. *)
Definition root_abspath (p : pystr) : pystr :=
  match p with
  | 47%N :: _ => p
  | _ => 47%N :: p
  end.

Definition root_dir : OsPath := {| abspath := root_abspath |}.

(** A one-pass reading of [kept_split]: the pieces passed on and the piece
    kept, [acc] being the line under assembly. A piece that ends with the
    text is kept unless its last character is '\n'. *)
Fixpoint scan (acc : pystr) (s : pystr) : list pystr * pystr :=
  match s with
  | [] => ([], acc)
  | c :: rest =>
      if is_CR c then
        match rest with
        | d :: rest' =>
            if is_LF d then
              let '(ls, b) := scan [] rest' in ((acc ++ [c; d]) :: ls, b)
            else let '(ls, b) := scan [] rest in ((acc ++ [c]) :: ls, b)
        | [] => ([], acc ++ [c])
        end
      else if is_linebreak c then
        match rest with
        | [] => if is_LF c then ([acc ++ [c]], []) else ([], acc ++ [c])
        | _ => let '(ls, b) := scan [] rest in ((acc ++ [c]) :: ls, b)
        end
      else scan (acc ++ [c]) rest
  end.

(** The object after [flush]. *)
Definition flushed (l : Logger) : Logger :=
  super_call CppFlush
    (if truth (_buffer l)
     then set_buffer [] (super_call (CppLog (_buffer l) (-1) (use_rank l) None) l)
     else l).

(** The object after [write(message, lvl, ur, new_file_path)]. *)
Definition written `{OsPath} (message : pystr) (lvl : Z) (ur : bool)
    (new_file_path : option pystr) (l : Logger) : Logger :=
  let t := _buffer l ++ message in
  add_calls (line_calls (kept_split t).1 lvl (use_rank l || ur) new_file_path)
            (set_buffer (kept_split t).2 l).

(** The [log] calls a sequence of [write] calls makes on an object whose
    buffer holds [b] and whose [use_rank] is [self_ur]. *)
Fixpoint writes_calls `{OsPath} (b : pystr) (self_ur : bool)
    (calls : list WriteCall) : list CoreCall :=
  match calls with
  | [] => []
  | c :: cs =>
      let t := b ++ w_message c in
      line_calls (kept_split t).1 (w_level c) (self_ur || w_use_rank c)
                 (w_new_file_path c)
      ++ writes_calls (kept_split t).2 self_ur cs
  end.

(** The fresh object of the examples: [Logger('app')], made while
    [sys.stdout] is the terminal [Console 0]. *)
Definition app_logger `{OsPath} : State :=
  {| self := Logger_init 1 (init_defaults (Some (lit "app"))) (Console 0);
     sys_stdout := Console 0 |}.

(** The object after [reconfigure(a)]. *)
Definition reconfigured `{OsPath} (a : ReconfigureArgs) (l : Logger) : Logger :=
  let l' := flushed (merge a l) in
  super_call (CppReconfigure (core_config l')) l'.

(** The object after [log] of [args], [sep], [end], ..., with
    [sep] and [end] strings. *)
Definition logged `{OsPath} (args : list pyval) (sep e : pystr) (lvl : Z)
    (ur : bool) (new_file_path : option pystr) (l : Logger) : Logger :=
  super_call (CppLog (join sep (map py_str args) ++ e) lvl (use_rank l || ur)
                     (Some (abspath_or_empty new_file_path))) l.

(** The buffer holds no complete newline-terminated line. *)
Definition no_newline (b : pystr) : Prop := LF ∉ b.

(** [reconfigure(new_file_path=p)]: only the file path is supplied. *)
Definition only_file_path (p : pystr) : ReconfigureArgs :=
  {| r_name := None; r_new_file_path := Some p; r_mode := Some (lit "a");
     r_level := None; r_use_rank := None; r_rank := None;
     r_world_size := None; r_auto_detect_env := None; r_log_rank := None |}.

(** An environment without launcher variables. *)
Definition no_launcher : CoreEnv :=
  {| detect_rank := fun _ => None;
     timestamp := lit "2024-09-8 17:34:16";
     level_field := fun _ => lit "  INFO  " |}.

(** The arguments of the example in the docstring of [Logger]:
    [Logger('LogName', 'log.txt', use_rank=True, rank=0, world_size=10)]. *)
Definition docstring_args (r : option Z) : InitArgs :=
  {| i_name := Some (lit "LogName"); i_file_path := Some (lit "log.txt");
     i_mode := lit "a"; i_level := NOTSET; i_use_rank := true;
     i_rank := r; i_world_size := Some 10;
     i_auto_detect_env := None; i_log_rank := None |}.

(** A [log] call that names no file of its own. *)
Definition names_no_file (c : CoreCall) : Prop :=
  exists m lvl ur, c = CppLog m lvl ur (Some []).

(** An attribute as [decorator] leaves it: wrapped if callable. *)
Definition wrap_attr (lp : LogPrints) (kv : string * pyobj) : string * pyobj :=
  (kv.1, if callable kv.2 then Wrapper lp kv.2 else kv.2).

(** An attribute value that is not callable, or is a function or a method. *)
Definition simple_attr (v : pyobj) : bool :=
  negb (callable v) || isfunction v || ismethod v.

(** The class dictionary when the loop of [decorator] has handled the first
    [i] items. *)
Definition staged (lp : LogPrints) (i : nat) (d : list (string * pyobj))
    : list (string * pyobj) :=
  (wrap_attr lp <$> take i d) ++ drop i d.

Definition with_dict (cls : PyClass) (d : list (string * pyobj)) : PyClass :=
  {| bases := bases cls; cls_dict := d |}.

(** [log_prints()]: every parameter at its default. *)
Definition log_prints_defaults : LogPrints :=
  {| lp_name := None; lp_file_path := None; lp_mode := lit "a";
     lp_level := -1; lp_use_rank := false; lp_rank := None;
     lp_world_size := None; lp_auto_detect_env := None;
     logger_instance := None |}.

(** Three classes: a base (1) with one method, a class (2) derived from it
    with two methods and a data attribute, and a class (3) one of whose
    attributes is a callable object that is no function (a [staticmethod]
    object, a [functools.partial], ...). *)
Definition example_classes : gmap nat PyClass :=
  {[ 1%nat := {| bases := [];
                 cls_dict := [("greet"%string, Function [Print (lit "hi")])] |};
     2%nat := {| bases := [1%nat];
                 cls_dict := [("__init__"%string, Function [Print (lit "new")]);
                              ("label"%string, Data (PyInt 7));
                              ("run"%string, Function [Return (PyInt 1)])] |};
     3%nat := {| bases := [];
                 cls_dict := [("run"%string, Function [Return (PyInt 1)]);
                              ("make"%string, OtherCallable 0);
                              ("stop"%string, Function [Return PyNone])] |} ]}.

(** Every [Logger] live in [w] is still live in [w'], with its identity and
    with the console target it saved when it was made. *)
Definition extends (w w' : World) : Prop :=
  forall id L, objects w !! id = Some L ->
    exists L', objects w' !! id = Some L'
               /\ original_stdout L' = original_stdout L
               /\ ident L' = ident L.

(** A method that leaves the identity and the saved target of its object
    alone. *)
Definition keeps_identity {A} (m : M A) : Prop :=
  forall s, original_stdout (self (m s).2) = original_stdout (self s)
            /\ ident (self (m s).2) = ident (self s).

(** A process whose [sys.stdout] is the terminal and that has no [Logger]. *)
Definition bare_world : World :=
  {| stdout := Console 0; objects := ∅; console := [] |}.

(** A process in which a [Logger] (identity 1) was made while [sys.stdout]
    was the terminal [Console 0], and [sys.stdout] was then pointed at some
    other target [Console 1]. *)
Definition stale_world `{OsPath} : World :=
  {| stdout := Console 1;
     objects := {[ 1%nat := Logger_init 1 (init_defaults (Some (lit "app")))
                                        (Console 0) ]};
     console := [] |}.

(** [log_prints(logger_instance=<the Logger with identity id>)]. *)
Definition log_prints_with (id : nat) : LogPrints :=
  {| lp_name := None; lp_file_path := None; lp_mode := lit "a";
     lp_level := -1; lp_use_rank := false; lp_rank := None;
     lp_world_size := None; lp_auto_detect_env := None;
     logger_instance := Some id |}.

(** A message that ends in a line boundary. *)
Definition ends_in_boundary (m : pystr) : Prop :=
  match last m with
  | Some c => is_linebreak c = true
  | None => False
  end.

(** Core calls that leave the core's configuration alone. *)
Definition quiet (cs : list CoreCall) : Prop :=
  Forall (fun c => match c with
                   | CppInit _ | CppReconfigure _ => False
                   | _ => True
                   end) cs.

(** How often a trace calls the core's [close]. *)
Fixpoint count_close (cs : list CoreCall) : nat :=
  match cs with
  | [] => O
  | CppClose :: cs' => S (count_close cs')
  | _ :: cs' => count_close cs'
  end.

(** benchmark.py: [log_message.format(i)] with
    [log_message = "Log message {}"]. *)
Definition log_message_format (i : nat) : pystr :=
  lit "Log message " ++ py_str (PyInt (Z.of_nat i)).

(** benchmark.py, the timed body [inner] of [benchmark_logger(logger)]:
    [for i in range(num_iterations): logger.info(log_message.format(i))];
    [indices] is the range still to run. *)
Fixpoint benchmark_inner `{OsPath} (indices : list nat) (s : State) : State :=
  match indices with
  | [] => s
  | i :: rest =>
      benchmark_inner rest
        (info [PyStr (log_message_format i)] (Some (lit " ")) (Some [LF])
              false None s).2
  end.

(** * Properties *)

(** ** Line splitting *)

Section Splitting.

Lemma is_LF_linebreak c : is_LF c = true -> is_linebreak c = true.
  Proof.
    unfold is_LF, is_linebreak, LF. intros ->%N.eqb_eq. reflexivity.
  Qed.

Lemma is_CR_linebreak c : is_CR c = true -> is_linebreak c = true.
  Proof.
    unfold is_CR, is_linebreak, CR. intros ->%N.eqb_eq. reflexivity.
  Qed.

Lemma is_CR_not_LF c : is_CR c = true -> is_LF c = false.
  Proof.
    unfold is_CR, is_LF, CR, LF. intros ->%N.eqb_eq. reflexivity.
  Qed.

Lemma is_LF_spec c : is_LF c = true <-> c = LF.
  Proof. unfold is_LF. apply N.eqb_eq. Qed.

  (** Case analysis following the splitter: one case per branch. *)
Lemma splitlines_from_cases (P : pystr -> pystr -> Prop) :
    (forall acc, P acc []) ->
    (forall acc c d rest,
        is_CR c = true -> is_LF d = true ->
        P [] rest -> P acc (c :: d :: rest)) ->
    (forall acc c d rest,
        is_CR c = true -> is_LF d = false ->
        P [] (d :: rest) -> P acc (c :: d :: rest)) ->
    (forall acc c, is_CR c = true -> P acc [c]) ->
    (forall acc c rest,
        is_CR c = false -> is_linebreak c = true ->
        P [] rest -> P acc (c :: rest)) ->
    (forall acc c rest,
        is_linebreak c = false ->
        P (acc ++ [c]) rest -> P acc (c :: rest)) ->
    forall acc s, P acc s.
  Proof.
    intros Hnil Hcrlf Hcr Hcrend Hbrk Hchr acc s.
    remember (length s) as n eqn:Hn.
    revert acc s Hn.
    induction n as [n IH] using lt_wf_ind.
    intros acc [|c rest] Hn; [apply Hnil|].
    simpl in Hn.
    destruct (is_CR c) eqn:Ecr.
    - destruct rest as [|d rest']; [by apply Hcrend|].
      simpl in Hn.
      destruct (is_LF d) eqn:Elf.
      + apply Hcrlf; [done..|]. eapply (IH (length rest')); [lia|done].
      + apply Hcr; [done..|]. eapply (IH (length (d :: rest'))); [simpl; lia|done].
    - destruct (is_linebreak c) eqn:Ebrk.
      + apply Hbrk; [done..|]. eapply (IH (length rest)); [lia|done].
      + apply Hchr; [done|]. eapply (IH (length rest)); [lia|done].
  Qed.

Definition plain (a : pystr) : Prop :=
    Forall (fun c => is_linebreak c = false) a.

Lemma plain_not_CR c : is_linebreak c = false -> is_CR c = false.
  Proof.
    intros Hc. destruct (is_CR c) eqn:E; [|done].
    apply is_CR_linebreak in E. congruence.
  Qed.

Lemma plain_not_LF c : is_linebreak c = false -> is_LF c = false.
  Proof.
    intros Hc. destruct (is_LF c) eqn:E; [|done].
    apply is_LF_linebreak in E. congruence.
  Qed.

Lemma plain_snoc acc c : plain acc -> is_linebreak c = false -> plain (acc ++ [c]).
  Proof. intros Ha Hc. apply Forall_app. split; [done|]. by constructor. Qed.

Lemma endswith_LF_cons c s :
    endswith_LF (c :: s) = match s with [] => is_LF c | _ => endswith_LF s end.
  Proof. unfold endswith_LF. by destruct s. Qed.

Lemma endswith_LF_app_LF s : endswith_LF (s ++ [LF]) = true.
  Proof. unfold endswith_LF. by rewrite last_snoc. Qed.

  (** One step of the splitter and of [scan], branch by branch. *)
Lemma splitlines_from_CRLF acc c d rest :
    is_CR c = true -> is_LF d = true ->
    splitlines_from acc (c :: d :: rest)
    = (acc ++ [c; d]) :: splitlines_from [] rest.
  Proof. intros Hc Hd. simpl. by rewrite Hc, Hd. Qed.

Lemma splitlines_from_CR acc c d rest :
    is_CR c = true -> is_LF d = false ->
    splitlines_from acc (c :: d :: rest)
    = (acc ++ [c]) :: splitlines_from [] (d :: rest).
  Proof.
    intros Hc Hd.
    change (splitlines_from acc (c :: d :: rest)) with
      (if is_CR c then
         if is_LF d then (acc ++ [c; d]) :: splitlines_from [] rest
         else (acc ++ [c]) :: splitlines_from [] (d :: rest)
       else if is_linebreak c
            then (acc ++ [c]) :: splitlines_from [] (d :: rest)
            else splitlines_from (acc ++ [c]) (d :: rest)).
    by rewrite Hc, Hd.
  Qed.

Lemma splitlines_from_CR_end acc c :
    is_CR c = true -> splitlines_from acc [c] = [acc ++ [c]].
  Proof. intros Hc. simpl. by rewrite Hc. Qed.

Lemma splitlines_from_break acc c rest :
    is_CR c = false -> is_linebreak c = true ->
    splitlines_from acc (c :: rest) = (acc ++ [c]) :: splitlines_from [] rest.
  Proof.
    intros Hc Hb.
    change (splitlines_from acc (c :: rest)) with
      (if is_CR c then
         match rest with
         | d :: rest' =>
             if is_LF d then (acc ++ [c; d]) :: splitlines_from [] rest'
             else (acc ++ [c]) :: splitlines_from [] rest
         | [] => [acc ++ [c]]
         end
       else if is_linebreak c then (acc ++ [c]) :: splitlines_from [] rest
            else splitlines_from (acc ++ [c]) rest).
    by rewrite Hc, Hb.
  Qed.

Lemma splitlines_from_plain acc c rest :
    is_linebreak c = false ->
    splitlines_from acc (c :: rest) = splitlines_from (acc ++ [c]) rest.
  Proof.
    intros Hb.
    change (splitlines_from acc (c :: rest)) with
      (if is_CR c then
         match rest with
         | d :: rest' =>
             if is_LF d then (acc ++ [c; d]) :: splitlines_from [] rest'
             else (acc ++ [c]) :: splitlines_from [] rest
         | [] => [acc ++ [c]]
         end
       else if is_linebreak c then (acc ++ [c]) :: splitlines_from [] rest
            else splitlines_from (acc ++ [c]) rest).
    by rewrite (plain_not_CR _ Hb), Hb.
  Qed.

Lemma scan_CRLF acc c d rest :
    is_CR c = true -> is_LF d = true ->
    scan acc (c :: d :: rest)
    = ((acc ++ [c; d]) :: (scan [] rest).1, (scan [] rest).2).
  Proof. intros Hc Hd. simpl. rewrite Hc, Hd. by destruct (scan [] rest). Qed.

Lemma scan_CR acc c d rest :
    is_CR c = true -> is_LF d = false ->
    scan acc (c :: d :: rest)
    = ((acc ++ [c]) :: (scan [] (d :: rest)).1, (scan [] (d :: rest)).2).
  Proof.
    intros Hc Hd.
    change (scan acc (c :: d :: rest)) with
      (if is_CR c then
         if is_LF d then
           let '(ls, b) := scan [] rest in ((acc ++ [c; d]) :: ls, b)
         else let '(ls, b) := scan [] (d :: rest) in ((acc ++ [c]) :: ls, b)
       else if is_linebreak c then
              let '(ls, b) := scan [] (d :: rest) in ((acc ++ [c]) :: ls, b)
            else scan (acc ++ [c]) (d :: rest)).
    rewrite Hc, Hd. by destruct (scan [] (d :: rest)).
  Qed.

Lemma scan_end acc c :
    is_linebreak c = true -> is_LF c = false ->
    scan acc [c] = ([], acc ++ [c]).
  Proof. intros Hb Hlf. simpl. rewrite Hb, Hlf. by destruct (is_CR c). Qed.

Lemma scan_LF_end acc c :
    is_LF c = true -> scan acc [c] = ([acc ++ [c]], []).
  Proof.
    intros Hlf. simpl. rewrite (is_LF_linebreak _ Hlf), Hlf.
    destruct (is_CR c) eqn:Hc; [|done].
    apply is_CR_not_LF in Hc. congruence.
  Qed.

Lemma scan_break acc c x rest :
    is_CR c = false -> is_linebreak c = true ->
    scan acc (c :: x :: rest)
    = ((acc ++ [c]) :: (scan [] (x :: rest)).1, (scan [] (x :: rest)).2).
  Proof.
    intros Hc Hb.
    change (scan acc (c :: x :: rest)) with
      (if is_CR c then
         if is_LF x then
           let '(ls, b) := scan [] rest in ((acc ++ [c; x]) :: ls, b)
         else let '(ls, b) := scan [] (x :: rest) in ((acc ++ [c]) :: ls, b)
       else if is_linebreak c then
              let '(ls, b) := scan [] (x :: rest) in ((acc ++ [c]) :: ls, b)
            else scan (acc ++ [c]) (x :: rest)).
    rewrite Hc, Hb. by destruct (scan [] (x :: rest)).
  Qed.

Lemma scan_plain acc c rest :
    is_linebreak c = false -> scan acc (c :: rest) = scan (acc ++ [c]) rest.
  Proof.
    intros Hb.
    change (scan acc (c :: rest)) with
      (if is_CR c then
         match rest with
         | d :: rest' =>
             if is_LF d then
               let '(ls, b) := scan [] rest' in ((acc ++ [c; d]) :: ls, b)
             else let '(ls, b) := scan [] rest in ((acc ++ [c]) :: ls, b)
         | [] => ([], acc ++ [c])
         end
       else if is_linebreak c then
              match rest with
              | [] => if is_LF c then ([acc ++ [c]], []) else ([], acc ++ [c])
              | _ => let '(ls, b) := scan [] rest in ((acc ++ [c]) :: ls, b)
              end
            else scan (acc ++ [c]) rest).
    by rewrite (plain_not_CR _ Hb), Hb.
  Qed.

Lemma scan_nil acc : scan acc [] = ([], acc).
  Proof. done. Qed.

Local Arguments scan : simpl never.
Local Arguments splitlines_from : simpl never.

  (** The splitter yields no piece only for the empty text. *)
Lemma splitlines_from_nil acc s :
    splitlines_from acc s = [] -> acc = [] /\ s = [].
  Proof.
    revert acc s. apply (splitlines_from_cases
      (fun acc s => splitlines_from acc s = [] -> acc = [] /\ s = [])).
    - intros [|a acc]; simpl; [done|discriminate].
    - intros acc c d rest Hc Hd _. by rewrite splitlines_from_CRLF.
    - intros acc c d rest Hc Hd _. by rewrite splitlines_from_CR.
    - intros acc c Hc. by rewrite splitlines_from_CR_end.
    - intros acc c rest Hc Hb _. by rewrite splitlines_from_break.
    - intros acc c rest Hb IH. rewrite splitlines_from_plain by done.
      intros [E _]%IH. by destruct acc.
  Qed.

Lemma splitlines_from_cons_not_nil acc c s : splitlines_from acc (c :: s) <> [].
  Proof. by intros [_ ?]%splitlines_from_nil. Qed.

  (** Plain characters ahead of the text can be moved into the line under
      assembly. *)
Lemma scan_plain_prefix a : plain a ->
    forall acc x, scan acc (a ++ x) = scan (acc ++ a) x.
  Proof.
    induction 1 as [|c a Hc _ IH]; intros acc x.
    - by rewrite app_nil_r.
    - change ((c :: a) ++ x) with (c :: (a ++ x)).
      rewrite scan_plain, IH by done.
      by rewrite <- app_assoc.
  Qed.

Lemma removelast_cons_cons {A} (x y : A) l :
    removelast (x :: y :: l) = x :: removelast (y :: l).
  Proof. done. Qed.

  (** [scan] computes what the code does with [splitlines], [endswith] and
      [pop]. *)
Lemma scan_splitlines_from acc s :
    scan acc s =
      if endswith_LF s then (splitlines_from acc s, [])
      else (removelast (splitlines_from acc s),
            default [] (last (splitlines_from acc s))).
  Proof.
    revert acc s. apply (splitlines_from_cases (fun acc s =>
      scan acc s =
        if endswith_LF s then (splitlines_from acc s, [])
        else (removelast (splitlines_from acc s),
              default [] (last (splitlines_from acc s))))).
    - by intros [|a acc].
    - intros acc c d rest Hc Hd IH.
      rewrite scan_CRLF, splitlines_from_CRLF, IH, !endswith_LF_cons by done.
      destruct rest as [|x rest]; [by rewrite Hd|].
      pose proof (splitlines_from_cons_not_nil [] x rest).
      destruct (splitlines_from [] (x :: rest)) as [|q Q]; [done|].
      by destruct (endswith_LF (x :: rest)).
    - intros acc c d rest Hc Hd IH.
      rewrite scan_CR, splitlines_from_CR, IH, (endswith_LF_cons c) by done.
      pose proof (splitlines_from_cons_not_nil [] d rest).
      destruct (splitlines_from [] (d :: rest)) as [|q Q]; [done|].
      by destruct (endswith_LF (d :: rest)).
    - intros acc c Hc.
      rewrite scan_end, splitlines_from_CR_end
        by auto using is_CR_linebreak, is_CR_not_LF.
      unfold endswith_LF. simpl. by rewrite (is_CR_not_LF _ Hc).
    - intros acc c rest Hc Hb IH.
      rewrite splitlines_from_break, endswith_LF_cons by done.
      destruct rest as [|x rest].
      + destruct (is_LF c) eqn:Hlf.
        * by rewrite scan_LF_end.
        * by rewrite scan_end.
      + rewrite scan_break, IH by done.
        pose proof (splitlines_from_cons_not_nil [] x rest).
        destruct (splitlines_from [] (x :: rest)) as [|q Q]; [done|].
        by destruct (endswith_LF (x :: rest)).
    - intros acc c rest Hb IH.
      rewrite scan_plain, splitlines_from_plain, IH, endswith_LF_cons by done.
      destruct rest as [|x rest]; [|done].
      by rewrite (plain_not_LF _ Hb).
  Qed.

Lemma kept_split_scan t : kept_split t = scan [] t.
  Proof. unfold kept_split, splitlines. by rewrite scan_splitlines_from. Qed.

  (** Text appended after [t] leaves the pieces already passed on as they
      are, and is split together with the piece kept. *)
Lemma scan_app acc t : plain acc ->
    forall r, scan acc (t ++ r) =
      ((scan acc t).1 ++ (scan [] ((scan acc t).2 ++ r)).1,
       (scan [] ((scan acc t).2 ++ r)).2).
  Proof.
    revert acc t. apply (splitlines_from_cases (fun acc t => plain acc ->
      forall r, scan acc (t ++ r) =
        ((scan acc t).1 ++ (scan [] ((scan acc t).2 ++ r)).1,
         (scan [] ((scan acc t).2 ++ r)).2))).
    - intros acc Ha r. rewrite scan_nil. simpl.
      rewrite (scan_plain_prefix acc Ha [] r).
      simpl. by destruct (scan acc r).
    - intros acc c d rest Hc Hd IH Ha r.
      change ((c :: d :: rest) ++ r) with (c :: d :: (rest ++ r)).
      rewrite !scan_CRLF by done.
      by rewrite (IH (Forall_nil_2 _) r).
    - intros acc c d rest Hc Hd IH Ha r.
      change ((c :: d :: rest) ++ r) with (c :: d :: (rest ++ r)).
      rewrite !scan_CR by done.
      change (d :: (rest ++ r)) with ((d :: rest) ++ r).
      by rewrite (IH (Forall_nil_2 _) r).
    - intros acc c Hc Ha r.
      rewrite scan_end by auto using is_CR_linebreak, is_CR_not_LF.
      simpl. rewrite <- app_assoc.
      rewrite (scan_plain_prefix acc Ha [] ([c] ++ r)). simpl.
      by destruct (scan acc (c :: r)).
    - intros acc c rest Hc Hb IH Ha r.
      destruct rest as [|x rest].
      + destruct (is_LF c) eqn:Hlf.
        * rewrite (scan_LF_end acc c Hlf).
          destruct r as [|y r]; simpl.
          { by rewrite (scan_LF_end acc c Hlf). }
          by rewrite scan_break.
        * rewrite (scan_end acc c Hb Hlf).
          simpl. rewrite <- app_assoc.
          rewrite (scan_plain_prefix acc Ha [] ([c] ++ r)). simpl.
          by destruct (scan acc (c :: r)).
      + change ((c :: x :: rest) ++ r) with (c :: x :: (rest ++ r)).
        rewrite !scan_break by done.
        change (x :: (rest ++ r)) with ((x :: rest) ++ r).
        by rewrite (IH (Forall_nil_2 _) r).
    - intros acc c rest Hb IH Ha r.
      change ((c :: rest) ++ r) with (c :: (rest ++ r)).
      rewrite !scan_plain by done.
      apply IH. by apply plain_snoc.
  Qed.

  (** The piece kept is kept whole by a further pass. *)
Lemma scan_kept_held acc t : plain acc ->
    scan [] (scan acc t).2 = ([], (scan acc t).2).
  Proof.
    revert acc t. apply (splitlines_from_cases (fun acc t => plain acc ->
      scan [] (scan acc t).2 = ([], (scan acc t).2))).
    - intros acc Ha. rewrite scan_nil. simpl.
      pose proof (scan_plain_prefix acc Ha [] []) as E.
      rewrite app_nil_r in E. by rewrite E, scan_nil.
    - intros acc c d rest Hc Hd IH Ha. rewrite scan_CRLF by done.
      apply (IH (Forall_nil_2 _)).
    - intros acc c d rest Hc Hd IH Ha. rewrite scan_CR by done.
      apply (IH (Forall_nil_2 _)).
    - intros acc c Hc Ha.
      rewrite scan_end by auto using is_CR_linebreak, is_CR_not_LF.
      simpl. rewrite (scan_plain_prefix acc Ha [] [c]).
      apply scan_end; auto using is_CR_linebreak, is_CR_not_LF.
    - intros acc c rest Hc Hb IH Ha.
      destruct rest as [|x rest].
      + destruct (is_LF c) eqn:Hlf.
        * by rewrite scan_LF_end.
        * rewrite (scan_end acc c Hb Hlf). simpl.
          rewrite (scan_plain_prefix acc Ha [] [c]).
          by apply scan_end.
      + rewrite scan_break by done. apply (IH (Forall_nil_2 _)).
    - intros acc c rest Hb IH Ha. rewrite scan_plain by done.
      apply IH. by apply plain_snoc.
  Qed.

End Splitting.

(** ** What each method does to the object *)

Section Runs.
Context `{OsPath}.

Lemma add_calls_nil l : add_calls [] l = l.
  Proof. destruct l. unfold add_calls. simpl. by rewrite app_nil_r. Qed.

Lemma add_calls_super_call c cs l :
    add_calls cs (super_call c l) = add_calls (c :: cs) l.
  Proof. unfold add_calls, super_call. simpl. by rewrite <- app_assoc. Qed.

Lemma super_call_add_calls c l : super_call c l = add_calls [c] l.
  Proof. done. Qed.

Lemma write_lines_run lines lvl ur p s :
    write_lines lines lvl ur p s =
      (Returns tt,
       {| self := add_calls (line_calls lines lvl (use_rank (self s) || ur) p)
                            (self s);
          sys_stdout := sys_stdout s |}).
  Proof.
    revert p s. induction lines as [|line rest IH]; intros p s.
    - simpl. rewrite add_calls_nil. by destruct s.
    - simpl. unfold bind, attr, update. simpl.
      rewrite IH. simpl. by rewrite add_calls_super_call.
  Qed.

  (** [write] raises exactly when buffer and message are both empty; in
      either case the object is as [written] describes. *)
Lemma write_run message lvl ur p s :
    write message lvl ur p s =
      (match _buffer (self s) ++ message with
       | [] => Raises IndexError
       | _ => Returns tt
       end,
       {| self := written message lvl ur p (self s);
          sys_stdout := sys_stdout s |}).
  Proof.
    unfold write, written, bind, attr, update, kept_split, list_pop. simpl.
    set (t := _buffer (self s) ++ message).
    destruct (endswith_LF t) eqn:Hend; simpl.
    - rewrite write_lines_run. simpl.
      destruct t; [discriminate|done].
    - destruct (last (splitlines t)) as [b|] eqn:Hlast; simpl.
      + rewrite write_lines_run. simpl.
        destruct t; [discriminate|done].
      + apply last_None in Hlast.
        apply splitlines_from_nil in Hlast as [_ ->]. simpl.
        by rewrite add_calls_nil.
  Qed.

Lemma flush_run s :
    flush s = (Returns tt,
               {| self := flushed (self s); sys_stdout := sys_stdout s |}).
  Proof.
    unfold flush, flushed, bind, attr, update. simpl.
    by destruct (truth (_buffer (self s))).
  Qed.

Lemma flushed_buffer l : _buffer (flushed l) = [].
  Proof.
    unfold flushed. destruct (_buffer l) eqn:E; simpl; [done|].
    unfold truth, truthy_str. by simpl.
  Qed.

End Runs.

(** ** [write]: lines out, fragment kept *)

Section Writing.
Context `{OsPath}.

Lemma log_messages_line_calls lines lvl ur p :
    log_messages (line_calls lines lvl ur p) = lines.
  Proof.
    revert p. induction lines as [|line rest IH]; intros p; [done|].
    simpl. unfold log_messages in *. simpl. by rewrite IH.
  Qed.

Lemma log_messages_app cs1 cs2 :
    log_messages (cs1 ++ cs2) = log_messages cs1 ++ log_messages cs2.
  Proof. apply omap_app. Qed.

Lemma line_calls_level_rank lines lvl ur p :
    Forall (fun c => exists m q, c = CppLog m lvl ur (Some q))
           (line_calls lines lvl ur p).
  Proof.
    revert p. induction lines as [|line rest IH]; intros p; simpl.
    - constructor.
    - constructor; [by eexists _, _|apply IH].
  Qed.

Lemma held_nil : held [].
  Proof. done. Qed.

Lemma kept_split_held t : held (kept_split t).2.
  Proof.
    unfold held. rewrite !kept_split_scan. apply scan_kept_held. constructor.
  Qed.

Lemma kept_split_app t r :
    kept_split (t ++ r) =
      ((kept_split t).1 ++ (kept_split ((kept_split t).2 ++ r)).1,
       (kept_split ((kept_split t).2 ++ r)).2).
  Proof. rewrite !kept_split_scan. apply scan_app. constructor. Qed.

Lemma written_fields m lvl ur p l :
    use_rank (written m lvl ur p l) = use_rank l
    /\ original_stdout (written m lvl ur p l) = original_stdout l
    /\ ident (written m lvl ur p l) = ident l
    /\ file_path (written m lvl ur p l) = file_path l.
  Proof. done. Qed.

Lemma writes_run calls : forall s,
    core (self (writes calls s))
      = core (self s)
        ++ writes_calls (_buffer (self s)) (use_rank (self s)) calls
    /\ use_rank (self (writes calls s)) = use_rank (self s)
    /\ sys_stdout (writes calls s) = sys_stdout s.
  Proof.
    induction calls as [|c cs IH]; intros s; simpl.
    - by rewrite app_nil_r.
    - rewrite write_run. simpl.
      destruct (IH {| self := written (w_message c) (w_level c) (w_use_rank c)
                                      (w_new_file_path c) (self s);
                      sys_stdout := sys_stdout s |}) as (-> & -> & ->).
      simpl. by rewrite <- app_assoc.
  Qed.

Lemma writes_buffer calls : forall s,
    held (_buffer (self s)) ->
    _buffer (self (writes calls s))
      = (kept_split (_buffer (self s) ++ concat (map w_message calls))).2
    /\ log_messages (writes_calls (_buffer (self s)) (use_rank (self s)) calls)
      = (kept_split (_buffer (self s) ++ concat (map w_message calls))).1.
  Proof.
    induction calls as [|c cs IH]; intros s Hheld; simpl.
    - rewrite app_nil_r, Hheld. done.
    - rewrite write_run. cbn [snd].
      set (s1 := {| self := written _ _ _ _ (self s) |}).
      destruct (IH s1) as [Hb Hm]; [apply kept_split_held|].
      rewrite Hb, log_messages_app, log_messages_line_calls.
      change (use_rank (self s)) with (use_rank (self s1)).
      change (writes_calls (kept_split (_buffer (self s) ++ w_message c)).2)
        with (writes_calls (_buffer (self s1))).
      rewrite Hm.
      rewrite (app_assoc (_buffer (self s))).
      rewrite (kept_split_app (_buffer (self s) ++ w_message c)).
      done.
  Qed.

End Writing.

Section WriteClaim.
Context `{OsPath}.

Lemma scan_newline_lines t : forall acc,
    Forall (fun c => is_linebreak c = true -> c = LF) t ->
    scan acc t = newline_lines_from acc t.
  Proof.
    induction t as [|c rest IH]; intros acc Hall; [done|].
    apply Forall_cons in Hall as [Hc Hrest].
    destruct (is_linebreak c) eqn:Hb.
    - rewrite (Hc eq_refl). simpl newline_lines_from.
      rewrite <- (IH [] Hrest).
      destruct rest as [|x rest]; [done|].
      rewrite scan_break by done. by destruct (scan [] (x :: rest)).
    - rewrite scan_plain by done. simpl.
      rewrite (plain_not_LF _ Hb). by apply IH.
  Qed.

  (** C2 (as amended). Each [write] passes to the core's [log], in order, the
      pieces into which [str.splitlines(keepends=True)] cuts the buffer
      followed by the message, every one with the level of the call and with
      [use_rank] the OR of the instance's and the call's; the last piece is
      kept in the buffer, and not passed on, unless the text ends in '\n'.
      Over a sequence of calls the messages passed on are the pieces of the
      concatenated input, the last one kept likewise. Where '\n' is the only
      line boundary in the text, these pieces are its newline-terminated
      lines. *)
Theorem write_emits_splitlines :
    (forall s m lvl ur p,
        let t := _buffer (self s) ++ m in
        let s' := (write m lvl ur p s).2 in
        let cs := line_calls (kept_split t).1 lvl (use_rank (self s) || ur) p in
        core (self s') = core (self s) ++ cs
        /\ log_messages cs = (kept_split t).1
        /\ Forall (fun c => exists line q,
                     c = CppLog line lvl (use_rank (self s) || ur) (Some q)) cs
        /\ _buffer (self s') = (kept_split t).2)
    /\ (forall s calls,
          held (_buffer (self s)) ->
          let t := _buffer (self s) ++ concat (map w_message calls) in
          let s' := writes calls s in
          let cs := writes_calls (_buffer (self s)) (use_rank (self s)) calls in
          core (self s') = core (self s) ++ cs
          /\ log_messages cs = (kept_split t).1
          /\ _buffer (self s') = (kept_split t).2)
    /\ (forall t,
          Forall (fun c => is_linebreak c = true -> c = LF) t ->
          kept_split t = newline_lines t).
  Proof.
    split; [|split].
    - intros s m lvl ur p t s' cs. subst s'. rewrite write_run. simpl.
      repeat split.
      + apply log_messages_line_calls.
      + apply line_calls_level_rank.
    - intros s calls Hheld t s' cs.
      destruct (writes_run calls s) as (Hcore & _ & _).
      destruct (writes_buffer calls s Hheld) as (Hbuf & Hmsg).
      done.
    - intros t Ht. rewrite kept_split_scan. by apply scan_newline_lines.
  Qed.

End WriteClaim.

(** Two writes on a fresh object: "ab", then "c\nd". *)
Lemma write_emits_splitlines_witness :
  let calls :=
    [ {| w_message := lit "ab"; w_level := NOTSET; w_use_rank := false;
         w_new_file_path := None |};
      {| w_message := lit "c" ++ [LF] ++ lit "d"; w_level := INFO;
         w_use_rank := true; w_new_file_path := None |} ] in
  held (_buffer (self (@app_logger root_dir)))
  /\ log_messages (writes_calls (H := root_dir) [] false calls)
     = [lit "abc" ++ [LF]]
  /\ _buffer (self (writes (H := root_dir) calls (@app_logger root_dir)))
     = lit "d".
Proof.
  intros calls.
  assert (held (_buffer (self (@app_logger root_dir)))) as Hheld
    by reflexivity.
  split; [exact Hheld|].
  destruct (proj1 (proj2 (@write_emits_splitlines root_dir))
              (@app_logger root_dir) calls Hheld) as (_ & Hmsg & Hbuf).
  split; [exact Hmsg | exact Hbuf].
Defined.

(** C2 as stated fails: a carriage return ends a line for [splitlines], so
    writing "a\rb\n" passes on "a\r" and "b\n", while the only
    newline-terminated line of that text is "a\rb\n". *)
Lemma write_newline_lines_counterexample :
  let text := lit "a" ++ [CR] ++ lit "b" ++ [LF] in
  let s' := (write (H := root_dir) text NOTSET false None
                   (@app_logger root_dir)).2 in
  log_messages (core (self s')) = [lit "a" ++ [CR]; lit "b" ++ [LF]]
  /\ (newline_lines text).1 = [text]
  /\ log_messages (core (self s')) <> (newline_lines text).1.
Proof. repeat split. discriminate. Qed.

(** ** The other methods *)

Section MoreRuns.
Context `{OsPath}.

Lemma flushed_fields l :
    ident (flushed l) = ident l
    /\ original_stdout (flushed l) = original_stdout l
    /\ core_config (flushed l) = core_config l.
  Proof. unfold flushed. by destruct (truth (_buffer l)). Qed.

Lemma flushed_core l :
    core (flushed l) =
      core l
      ++ (if truth (_buffer l)
          then [CppLog (_buffer l) (-1) (use_rank l) None] else [])
      ++ [CppFlush].
  Proof.
    unfold flushed. destruct (truth (_buffer l)); simpl; [|done].
    by rewrite <- app_assoc.
  Qed.

  (** Unfold a method that flushes, and split on whether the buffer holds
      content. *)
Ltac run_method s :=
    unfold Logger_del, close, Logger_enter, Logger_exit, redirect_print,
      reset_print, flush, flushed, bind, ret, attr, update, assign_stdout;
    simpl;
    destruct (truth (_buffer (self s))) eqn:E;
    repeat (simpl; rewrite ?E); reflexivity.

Lemma redirect_print_run s :
    redirect_print s =
      (Returns tt, {| self := flushed (self s);
                      sys_stdout := LoggerStream (ident (self s)) |}).
  Proof. run_method s. Qed.

Lemma reset_print_run s :
    reset_print s =
      (Returns tt, {| self := flushed (self s);
                      sys_stdout := original_stdout (self s) |}).
  Proof. run_method s. Qed.

Lemma close_run s :
    close s =
      (Returns tt, {| self := super_call CppClose (flushed (flushed (self s)));
                      sys_stdout := original_stdout (self s) |}).
  Proof. run_method s. Qed.

Lemma flushed_original_stdout l :
    original_stdout (flushed l) = original_stdout l.
  Proof. unfold flushed. by destruct (truth (_buffer l)). Qed.

Lemma Logger_del_run s :
    Logger_del s =
      (Returns tt,
       {| self := flushed (super_call CppClose
                             (flushed (flushed (flushed (self s)))));
          sys_stdout := original_stdout (self s) |}).
  Proof.
    unfold Logger_del, bind.
    rewrite flush_run, close_run, reset_print_run.
    cbn [self sys_stdout].
    change (original_stdout (super_call CppClose ?l))
      with (original_stdout l).
    by rewrite !flushed_original_stdout.
  Qed.

Lemma Logger_enter_run s :
    Logger_enter s =
      (Returns (ident (self s)),
       {| self := flushed (self s);
          sys_stdout := LoggerStream (ident (self s)) |}).
  Proof. run_method s. Qed.

Lemma Logger_exit_run exc s :
    Logger_exit exc s =
      (Returns false, {| self := flushed (self s);
                         sys_stdout := original_stdout (self s) |}).
  Proof. run_method s. Qed.

Lemma reconfigure_run a s :
    reconfigure a s =
      (Returns tt, {| self := reconfigured a (self s);
                      sys_stdout := sys_stdout s |}).
  Proof.
    unfold reconfigure, reconfigured, bind, attr, update. simpl.
    by rewrite flush_run.
  Qed.

Lemma log_run args sep e lvl ur p s :
    log args (Some sep) (Some e) lvl ur p s =
      (Returns tt, {| self := logged args sep e lvl ur p (self s);
                      sys_stdout := sys_stdout s |}).
  Proof. done. Qed.

  (** Whatever its arguments, [log] leaves the buffer alone. *)
Lemma log_buffer args sep e lvl ur p s :
    _buffer (self (log args sep e lvl ur p s).2) = _buffer (self s).
  Proof. by destruct sep, e. Qed.

End MoreRuns.

(** ** [flush] *)

(** C4. With content in the buffer, [flush] passes exactly that content to
    the core's [log], once, at NOTSET level (for which the core adds no
    timestamp or level field) and with the instance's [use_rank], then
    flushes the core; the buffer is left empty, and a second [flush] right
    after makes no [log] call. *)
Theorem flush_emits_fragment_once s :
  _buffer (self s) <> [] ->
  let s1 := (flush s).2 in
  let s2 := (flush s1).2 in
  core (self s1)
    = core (self s)
      ++ [CppLog (_buffer (self s)) NOTSET (use_rank (self s)) None; CppFlush]
  /\ _buffer (self s1) = []
  /\ core (self s2) = core (self s1) ++ [CppFlush]
  /\ log_messages (core (self s2))
     = log_messages (core (self s)) ++ [_buffer (self s)]
  /\ (forall (E : CoreEnv) cfg,
        Core.format_line cfg (_buffer (self s)) NOTSET (use_rank (self s))
        = Core.rank_prefix cfg (use_rank (self s)) ++ _buffer (self s)).
Proof.
  intros Hbuf s1 s2. subst s1 s2.
  rewrite !flush_run. cbn [snd self].
  assert (truth (_buffer (self s)) = true) as Htruth
    by (by destruct (_buffer (self s))).
  pose proof (flushed_core (self s)) as Hcore. rewrite Htruth in Hcore.
  assert (core (flushed (flushed (self s)))
          = core (flushed (self s)) ++ [CppFlush]) as Hcore2.
  { rewrite (flushed_core (flushed (self s))), flushed_buffer. done. }
  split; [exact Hcore|].
  split; [apply flushed_buffer|].
  split; [exact Hcore2|].
  split.
  - rewrite Hcore2, Hcore, !log_messages_app. simpl. by rewrite app_nil_r.
  - intros E cfg. unfold Core.format_line. done.
Qed.

(** A fresh object after [write("partial")]. *)
Lemma flush_emits_fragment_once_witness :
  let s := (write (H := root_dir) (lit "partial") NOTSET false None
                  (@app_logger root_dir)).2 in
  _buffer (self s) <> []
  /\ log_messages (core (self (flush s).2)) = [lit "partial"]
  /\ _buffer (self (flush s).2) = []
  /\ log_messages (core (self (flush (flush s).2).2)) = [lit "partial"].
Proof.
  intros s.
  assert (_buffer (self s) <> []) as Hbuf by discriminate.
  destruct (flush_emits_fragment_once s Hbuf) as (Hc & Hb & _ & Hm & _).
  split; [exact Hbuf|].
  split; [by rewrite Hc|].
  split; [exact Hb | exact Hm].
Defined.

(** ** [log] and the level methods *)

(** C6. [log] with string [sep] and [end] passes to the core exactly one
    message, the stringified parts joined by [sep] with [end] appended, and
    leaves the line buffer as it was; [info("a", "b", sep="-", end=".")]
    passes the one message "a-b." at INFO level. *)
Theorem log_passes_one_message `{OsPath} :
  (forall s args sep e lvl ur p,
      let r := log args (Some sep) (Some e) lvl ur p s in
      r.1 = Returns tt
      /\ core (self r.2)
         = core (self s)
           ++ [CppLog (join sep (map py_str args) ++ e) lvl
                      (use_rank (self s) || ur) (Some (abspath_or_empty p))]
      /\ _buffer (self r.2) = _buffer (self s))
  /\ (forall s,
        let r := info [PyStr (lit "a"); PyStr (lit "b")]
                      (Some (lit "-")) (Some (lit ".")) false None s in
        r.1 = Returns tt
        /\ core (self r.2)
           = core (self s)
             ++ [CppLog (lit "a-b.") INFO (use_rank (self s)) (Some [])]
        /\ _buffer (self r.2) = _buffer (self s)).
Proof.
  split.
  - intros s args sep e lvl ur p r. by subst r.
  - intros s r. subst r. unfold info, log_at. rewrite log_run. simpl.
    by rewrite orb_false_r.
Qed.

(** ** The buffer invariant *)

Section Invariant.
Context `{OsPath}.

Lemma plain_no_newline acc : plain acc -> no_newline acc.
  Proof.
    intros Ha Hin. unfold plain in Ha. rewrite Forall_forall in Ha.
    by specialize (Ha _ Hin).
  Qed.

Lemma no_newline_snoc acc c :
    plain acc -> is_LF c = false -> no_newline (acc ++ [c]).
  Proof.
    intros Ha Hc [Hin|Hin%list_elem_of_singleton]%elem_of_app.
    - by apply (plain_no_newline acc).
    - subst c. done.
  Qed.

Lemma scan_kept_no_newline acc t : plain acc -> no_newline (scan acc t).2.
  Proof.
    revert acc t. apply (splitlines_from_cases (fun acc t =>
      plain acc -> no_newline (scan acc t).2)).
    - intros acc Ha. by apply plain_no_newline.
    - intros acc c d rest Hc Hd IH Ha. rewrite scan_CRLF by done.
      apply IH. constructor.
    - intros acc c d rest Hc Hd IH Ha. rewrite scan_CR by done.
      apply IH. constructor.
    - intros acc c Hc Ha.
      rewrite scan_end by auto using is_CR_linebreak, is_CR_not_LF.
      apply no_newline_snoc; auto using is_CR_not_LF.
    - intros acc c rest Hc Hb IH Ha.
      destruct rest as [|x rest].
      + destruct (is_LF c) eqn:Hlf.
        * rewrite scan_LF_end by done. apply not_elem_of_nil.
        * rewrite scan_end by done. by apply no_newline_snoc.
      + rewrite scan_break by done. apply IH. constructor.
    - intros acc c rest Hb IH Ha. rewrite scan_plain by done.
      apply IH. by apply plain_snoc.
  Qed.

Lemma kept_no_newline t : no_newline (kept_split t).2.
  Proof. rewrite kept_split_scan. apply scan_kept_no_newline. constructor. Qed.

Lemma no_newline_nil : no_newline [].
  Proof. apply not_elem_of_nil. Qed.

Lemma step_no_newline o s :
    no_newline (_buffer (self s)) -> no_newline (_buffer (self (step o s))).
  Proof.
    intros Hinv.
    destruct o as [c| | | | | | | | | |]; unfold step;
      rewrite ?write_run, ?flush_run, ?reconfigure_run, ?redirect_print_run,
        ?reset_print_run, ?close_run, ?Logger_enter_run, ?Logger_exit_run;
      unfold reconfigured; cbn [snd self];
      try change (_buffer (super_call ?c ?l)) with (_buffer l);
      rewrite ?flushed_buffer; try apply no_newline_nil.
    - apply kept_no_newline.
    - by rewrite log_buffer.
    - unfold log_at. by rewrite log_buffer.
    - done.
  Qed.

Lemma steps_no_newline ops : forall s,
    no_newline (_buffer (self s)) -> no_newline (_buffer (self (steps ops s))).
  Proof.
    induction ops as [|o ops IH]; intros s Hinv; [done|].
    simpl. apply IH. by apply step_no_newline.
  Qed.

  (** C7. The line buffer never contains a newline, hence no complete
      newline-terminated line: it is empty in a new object, every operation
      ([write], [flush], [log] and the level methods, [reconfigure], [close],
      print redirection, scope entry and exit) preserves this whether it
      returns or raises, and so it holds after any sequence of operations. *)
Theorem buffer_never_holds_a_line :
    (forall id a out, no_newline (_buffer (Logger_init id a out)))
    /\ (forall o s,
          no_newline (_buffer (self s)) ->
          no_newline (_buffer (self (step o s))))
    /\ (forall id a out out' ops,
          no_newline
            (_buffer (self (steps ops {| self := Logger_init id a out;
                                         sys_stdout := out' |})))).
  Proof.
    split; [|split].
    - intros. apply no_newline_nil.
    - apply step_no_newline.
    - intros. apply steps_no_newline. apply no_newline_nil.
  Qed.

End Invariant.

(** A fresh object, then [write("x\ny")]. *)
Lemma buffer_never_holds_a_line_witness :
  let c := {| w_message := lit "x" ++ [LF] ++ lit "y"; w_level := NOTSET;
              w_use_rank := false; w_new_file_path := None |} in
  no_newline (_buffer (self (@app_logger root_dir)))
  /\ no_newline
       (_buffer (self (step (H := root_dir) (OpWrite c) (@app_logger root_dir)))).
Proof.
  intros c.
  assert (no_newline (_buffer (self (@app_logger root_dir)))) as Hinit
    by apply not_elem_of_nil.
  split; [exact Hinit|].
  exact (proj1 (proj2 (@buffer_never_holds_a_line root_dir))
           (OpWrite c) (@app_logger root_dir) Hinit).
Defined.

(** ** [reconfigure]: what is kept *)

Section Reconfigure.
Context `{OsPath}.

Lemma reconfigured_fields a l :
    name (reconfigured a l) = name (merge a l)
    /\ file_path (reconfigured a l) = file_path (merge a l)
    /\ mode (reconfigured a l) = mode (merge a l)
    /\ level (reconfigured a l) = level (merge a l)
    /\ use_rank (reconfigured a l) = use_rank (merge a l)
    /\ rank (reconfigured a l) = rank (merge a l)
    /\ world_size (reconfigured a l) = world_size (merge a l)
    /\ auto_detect_env (reconfigured a l) = auto_detect_env (merge a l)
    /\ log_rank (reconfigured a l) = log_rank (merge a l).
  Proof.
    unfold reconfigured, flushed.
    by destruct (truth (_buffer (merge a l))).
  Qed.

  (** C1 (as amended). After [reconfigure], each of name, file path, level,
      use_rank, rank, world_size and auto_detect_env that the caller left at
      its default [None] has the value it had before. The default of [mode]
      is 'a', which is not a no-op: a call that leaves [mode] at its default
      sets the mode to 'a'. In particular a call that supplies only a new file
      path leaves the level unchanged, sets the mode to 'a' and the file path
      to the absolute form of the new path. *)
Theorem reconfigure_keeps_unsupplied s a :
    let l := self s in
    let l' := self (reconfigure a s).2 in
    (r_name a = None -> name l' = name l)
    /\ (r_new_file_path a = None -> file_path l' = file_path l)
    /\ (r_level a = None -> level l' = level l)
    /\ (r_use_rank a = None -> use_rank l' = use_rank l)
    /\ (r_rank a = None -> rank l' = rank l)
    /\ (r_world_size a = None -> world_size l' = world_size l)
    /\ (r_auto_detect_env a = None -> auto_detect_env l' = auto_detect_env l)
    /\ (r_mode a = Some (lit "a") -> mode l' = lit "a")
    /\ (forall p, a = only_file_path p ->
          level l' = level l /\ mode l' = lit "a"
          /\ (truth p = true -> file_path l' = abspath p)).
  Proof.
    intros l l'. subst l l'. rewrite reconfigure_run. cbn [snd self].
    destruct (reconfigured_fields a (self s))
      as (-> & -> & -> & -> & -> & -> & -> & -> & _).
    unfold merge. cbn.
    do 8 (split; [by intros ->|]).
    intros p ->. cbn. do 2 (split; [done|]).
    intros Hp. by rewrite !Hp.
  Qed.

End Reconfigure.

(** An object opened with mode 'w', then [reconfigure(new_file_path="b.log")]. *)
Lemma reconfigure_keeps_unsupplied_witness :
  let l := Logger_init (H := root_dir) 1
             {| i_name := Some (lit "app"); i_file_path := Some (lit "a.log");
                i_mode := lit "w"; i_level := WARNING; i_use_rank := false;
                i_rank := None; i_world_size := None;
                i_auto_detect_env := None; i_log_rank := None |}
             (Console 0) in
  let s := {| self := l; sys_stdout := Console 0 |} in
  let l' := self (reconfigure (H := root_dir) (only_file_path (lit "b.log")) s).2 in
  r_name (only_file_path (lit "b.log")) = None
  /\ name l' = name l
  /\ level l' = WARNING
  /\ file_path l' = lit "/b.log".
Proof.
  intros l s l'.
  assert (r_name (only_file_path (lit "b.log")) = None) as Hname
    by reflexivity.
  pose proof (@reconfigure_keeps_unsupplied root_dir s
                (only_file_path (lit "b.log"))) as (Hn & _ & _ & _ & _ & _ & _ & _ & Hp).
  destruct (Hp (lit "b.log") eq_refl) as (Hl & _ & Hf).
  split; [exact Hname|].
  split; [exact (Hn Hname)|].
  split; [exact Hl|].
  exact (Hf eq_refl).
Defined.

(** C1 as stated fails for [mode]: an object opened with mode 'w' has mode
    'a' after a [reconfigure] that supplies only a new file path. *)
Lemma reconfigure_mode_counterexample :
  let l := Logger_init (H := root_dir) 1
             {| i_name := Some (lit "app"); i_file_path := Some (lit "a.log");
                i_mode := lit "w"; i_level := NOTSET; i_use_rank := false;
                i_rank := None; i_world_size := None;
                i_auto_detect_env := None; i_log_rank := None |}
             (Console 0) in
  let s := {| self := l; sys_stdout := Console 0 |} in
  let l' := self (reconfigure (H := root_dir) (only_file_path (lit "b.log")) s).2 in
  mode l = lit "w" /\ mode l' = lit "a" /\ mode l' <> mode l.
Proof. repeat split. discriminate. Qed.

(** The assignment [self.log_rank = log_rank or self.rank] replaces an unset
    [log_rank] by the rank, not by the previous [log_rank]. *)
Example reconfigure_log_rank_from_rank :
  let l := Logger_init (H := root_dir) 1
             {| i_name := Some (lit "app"); i_file_path := None;
                i_mode := lit "a"; i_level := NOTSET; i_use_rank := true;
                i_rank := Some 5; i_world_size := Some 8;
                i_auto_detect_env := None; i_log_rank := Some 3 |}
             (Console 0) in
  let s := {| self := l; sys_stdout := Console 0 |} in
  let l' := self (reconfigure (H := root_dir) (only_file_path (lit "b.log")) s).2 in
  log_rank l = 3 /\ log_rank l' = 5.
Proof. by split. Qed.

(** ** [reset_print], [close], destruction *)

(** C10. [reset_print] assigns to [sys.stdout] the target saved when the
    object was made, whatever [sys.stdout] is and whether or not this object
    ever redirected it; [close] and [__del__], which call it, do the same. So
    for an object made under target [out] that never redirected anything,
    closing or destroying it while some later redirection [t] is in place
    puts [out] back. *)
Theorem reset_print_unconditional `{OsPath} :
  (forall s,
      sys_stdout (reset_print s).2 = original_stdout (self s)
      /\ sys_stdout (close s).2 = original_stdout (self s)
      /\ sys_stdout (Logger_del s).2 = original_stdout (self s))
  /\ (forall id a out t,
        let s := {| self := Logger_init id a out; sys_stdout := t |} in
        sys_stdout (reset_print s).2 = out
        /\ sys_stdout (close s).2 = out
        /\ sys_stdout (Logger_del s).2 = out).
Proof.
  split.
  - intros s. by rewrite reset_print_run, close_run, Logger_del_run.
  - intros id a out t s. subst s.
    by rewrite reset_print_run, close_run, Logger_del_run.
Qed.

(** ** Rank and world size given to the constructor *)

(** C3, at the input of the docstring. [Logger(..., use_rank=True, rank=0,
    world_size=10)] stores [rank or -1], so the rank it keeps and hands to
    the core is -1: the object is the one built with [rank=None]. With no
    launcher variables in the environment the core's rank is unresolved and
    the line carries no "[0/10] " prefix. With [use_rank] false the prefix is
    empty under every configuration. *)
Theorem init_rank_zero_is_lost `{OsPath} id out :
  let l := Logger_init id (docstring_args (Some 0)) out in
  rank l = -1
  /\ world_size l = 10
  /\ core l = [CppInit (core_config l)]
  /\ c_rank (core_config l) = -1
  /\ l = Logger_init id (docstring_args None) out
  /\ (forall ts lf m,
        let E := {| detect_rank := fun _ => None; timestamp := ts;
                    level_field := lf |} in
        Core.format_line (H := E) (core_config l) m NOTSET true = m)
  /\ (forall (E : CoreEnv) cfg, Core.rank_prefix cfg false = []).
Proof. repeat split. Qed.

(** ** [reconfigure]: the pending content *)

Section Routing.
Context `{OsPath}.

Lemma routed_app cfg cs1 cs2 :
    Core.routed cfg (cs1 ++ cs2)
    = Core.routed cfg cs1 ++ Core.routed (Core.config_after cfg cs1) cs2.
  Proof.
    revert cfg. induction cs1 as [|c cs1 IH]; intros cfg; [done|].
    destruct c; simpl; by rewrite IH.
  Qed.

Lemma config_after_app cfg cs1 cs2 :
    Core.config_after cfg (cs1 ++ cs2)
    = Core.config_after (Core.config_after cfg cs1) cs2.
  Proof.
    revert cfg. induction cs1 as [|c cs1 IH]; intros cfg; [done|].
    destruct c; simpl; by rewrite IH.
  Qed.

  (** Calls that name no file go to the file of the configuration in force
      and leave that configuration as it is. *)
Lemma routed_names_no_file cfg cs :
    Forall names_no_file cs ->
    Core.routed cfg cs = (fun m => (c_file_path cfg, m)) <$> log_messages cs
    /\ Core.config_after cfg cs = cfg.
  Proof.
    induction 1 as [|c cs (m & lvl & ur & ->) _ [IHr IHc]]; [done|].
    simpl. by rewrite IHr, IHc.
  Qed.

Lemma line_calls_names_no_file lines lvl ur p :
    truth p = false -> Forall names_no_file (line_calls lines lvl ur p).
  Proof.
    revert p. induction lines as [|line rest IH]; intros p Hp; simpl.
    - constructor.
    - assert (abspath_or_empty p = []) as ->.
      { destruct p as [q|]; [|done]. simpl in *.
        unfold truth, truthy_optional in Hp. by rewrite Hp. }
      constructor; [by eexists _, _, _|by apply IH].
  Qed.

Lemma writes_calls_names_no_file calls : forall b ur,
    Forall (fun c => w_new_file_path c = None) calls ->
    Forall names_no_file (writes_calls b ur calls).
  Proof.
    induction calls as [|c cs IH]; intros b ur Hall; simpl.
    - constructor.
    - apply Forall_cons in Hall as [Hc Hcs].
      apply Forall_app. split; [|by apply IH].
      apply line_calls_names_no_file. by rewrite Hc.
  Qed.

Lemma reconfigured_core a l :
    core (reconfigured a l)
    = core l
      ++ (if truth (_buffer l)
          then [CppLog (_buffer l) NOTSET (use_rank (merge a l)) None] else [])
      ++ [CppFlush; CppReconfigure (core_config (merge a l))].
  Proof.
    unfold reconfigured.
    destruct (flushed_fields (merge a l)) as (_ & _ & Hcfg).
    cbn [core super_call]. rewrite Hcfg, flushed_core.
    change (_buffer (merge a l)) with (_buffer l).
    change (core (merge a l)) with (core l).
    by rewrite <- !app_assoc.
  Qed.

Lemma reconfigured_buffer a l : _buffer (reconfigured a l) = [].
  Proof. unfold reconfigured. cbn [_buffer super_call]. apply flushed_buffer. Qed.

  (** C5 (as amended). [reconfigure] passes the pending buffer content to the
      core before it reconfigures the core, so that content goes out under
      the core's old configuration, to the old file; the [use_rank] flag of
      that call is the one already merged from the new arguments. Afterwards
      the buffer is empty and the configuration in force is the merged one.
      When only the file path is supplied the flag is the old one, the
      pending content goes to the old file, and every later [write] that
      names no file of its own goes to the new file. *)
Theorem reconfigure_flushes_before_core cfg0 s a :
    let l := self s in
    let s' := (reconfigure a s).2 in
    let l' := self s' in
    core l'
      = core l
        ++ (if truth (_buffer l)
            then [CppLog (_buffer l) NOTSET (use_rank (merge a l)) None]
            else [])
        ++ [CppFlush; CppReconfigure (core_config (merge a l))]
    /\ _buffer l' = []
    /\ Core.routed cfg0 (core l')
       = Core.routed cfg0 (core l)
         ++ (if truth (_buffer l)
             then [(c_file_path (Core.config_after cfg0 (core l)), _buffer l)]
             else [])
    /\ Core.config_after cfg0 (core l') = core_config (merge a l)
    /\ (forall p, a = only_file_path p -> truth p = true ->
          file_path l' = abspath p /\ use_rank (merge a l) = use_rank l)
    /\ (forall calls,
          Forall (fun c => w_new_file_path c = None) calls ->
          Core.routed cfg0 (core (self (writes calls s')))
          = Core.routed cfg0 (core l')
            ++ ((fun m => (file_path l', m))
                  <$> (kept_split (concat (map w_message calls))).1)).
  Proof.
    intros l s' l'. subst l s' l'. rewrite reconfigure_run. cbn [snd self].
    set (l := self s).
    assert (Core.config_after cfg0 (core (reconfigured a l))
            = core_config (merge a l)) as Hcfg.
    { rewrite reconfigured_core, !config_after_app.
      by destruct (truth (_buffer l)). }
    split; [apply reconfigured_core|].
    split; [apply reconfigured_buffer|].
    split.
    { rewrite reconfigured_core, !routed_app.
      destruct (truth (_buffer l)); simpl; by rewrite ?app_nil_r. }
    split; [exact Hcfg|].
    split.
    { intros p -> Hp.
      destruct (reconfigured_fields (only_file_path p) l)
        as (_ & -> & _).
      unfold merge. cbn. by rewrite !Hp. }
    intros calls Hcalls.
    set (s1 := {| self := reconfigured a l; sys_stdout := sys_stdout s |}).
    destruct (writes_run calls s1) as (-> & _ & _).
    destruct (writes_buffer calls s1) as (_ & Hmsg).
    { cbn [self s1]. rewrite reconfigured_buffer. apply held_nil. }
    cbn [self s1] in *. rewrite reconfigured_buffer in *.
    rewrite routed_app, Hcfg.
    destruct (routed_names_no_file (core_config (merge a l))
                (writes_calls [] (use_rank (reconfigured a l)) calls))
      as (-> & _).
    { by apply writes_calls_names_no_file. }
    rewrite Hmsg.
    by destruct (reconfigured_fields a l) as (_ & -> & _).
  Qed.

End Routing.

(** A fresh object holding "x", then [reconfigure(new_file_path="b.log")],
    then [write("y\n")]. *)
Lemma reconfigure_flushes_before_core_witness :
  let s := (write (H := root_dir) (lit "x") NOTSET false None
                  (@app_logger root_dir)).2 in
  let a := only_file_path (lit "b.log") in
  let calls := [ {| w_message := lit "y" ++ [LF]; w_level := NOTSET;
                    w_use_rank := false; w_new_file_path := None |} ] in
  let s' := (reconfigure (H := root_dir) a s).2 in
  let cfg0 := core_config (self s) in
  (a = only_file_path (lit "b.log") /\ truth (lit "b.log") = true
   /\ Forall (fun c => w_new_file_path c = None) calls)
  /\ file_path (self s') = lit "/b.log"
  /\ Core.routed cfg0 (core (self s')) = [([], lit "x")]
  /\ Core.routed cfg0 (core (self (writes (H := root_dir) calls s')))
     = [([], lit "x"); (lit "/b.log", lit "y" ++ [LF])].
Proof.
  intros s a calls s' cfg0.
  assert (Forall (fun c => w_new_file_path c = None) calls) as Hcalls
    by (repeat constructor).
  assert (truth (lit "b.log") = true) as Hp by reflexivity.
  destruct (@reconfigure_flushes_before_core root_dir cfg0 s a)
    as (_ & _ & Hold & _ & Hpath & Hnew).
  destruct (Hpath (lit "b.log") eq_refl Hp) as (Hfile & _).
  split; [by repeat split|].
  split; [exact Hfile|].
  split; [exact Hold|].
  exact (Hnew calls Hcalls).
Defined.

(** C5 as stated fails for [use_rank]: on an object made with
    [use_rank=False] that holds "x", [reconfigure(use_rank=True)] passes "x"
    to the core with [use_rank] true: the new setting is applied to the
    object before the pending content is flushed. *)
Lemma reconfigure_flush_new_use_rank_counterexample :
  let s := (write (H := root_dir) (lit "x") NOTSET false None
                  (@app_logger root_dir)).2 in
  let a := {| r_name := None; r_new_file_path := None;
              r_mode := Some (lit "a"); r_level := None;
              r_use_rank := Some true; r_rank := None; r_world_size := None;
              r_auto_detect_env := None; r_log_rank := None |} in
  use_rank (self s) = false
  /\ _buffer (self s) = lit "x"
  /\ core (self (reconfigure (H := root_dir) a s).2)
     = core (self s)
       ++ [CppLog (lit "x") NOTSET true None; CppFlush;
           CppReconfigure (core_config (merge (H := root_dir) a (self s)))].
Proof. vm_compute. repeat split. Qed.

(** ** The decorator applied to a class *)

Section ClassDecoration.
Variable lp : LogPrints.

Lemma dict_set_insert d : forall i k v0 v,
    NoDup d.*1 -> d !! i = Some (k, v0) ->
    dict_set k v d = <[i := (k, v)]> d.
  Proof.
    induction d as [|[k' v'] d IH]; intros i k v0 v Hnd Hi; [done|].
    apply NoDup_cons in Hnd as [Hk' Hnd]. simpl.
    destruct i as [|i]; simpl in *.
    - injection Hi as -> ->. by rewrite decide_True.
    - rewrite decide_False.
      + f_equal. by eapply IH.
      + intros ->. apply Hk'.
        apply list_elem_of_fmap. exists (k', v0). split; [done|].
        by eapply list_elem_of_lookup_2.
  Qed.

Lemma staged_keys i d : (staged lp i d).*1 = d.*1.
  Proof.
    unfold staged. rewrite fmap_app, <- list_fmap_compose.
    rewrite <- (take_drop i d) at 3. rewrite fmap_app. f_equal.
  Qed.

Lemma staged_lookup i d : staged lp i d !! i = d !! i.
  Proof.
    unfold staged.
    destruct (decide (i <= length d)%nat) as [Hle|Hgt].
    - rewrite lookup_app_r; rewrite length_fmap, length_take, Nat.min_l by lia;
        [|lia].
      rewrite lookup_drop. f_equal. lia.
    - rewrite (lookup_ge_None_2 d) by lia.
      apply lookup_ge_None_2.
      rewrite length_app, length_fmap, length_take, length_drop. lia.
  Qed.

Lemma staged_step i d kv :
    d !! i = Some kv ->
    <[i := wrap_attr lp kv]> (staged lp i d) = staged lp (S i) d.
  Proof.
    intros Hi. unfold staged.
    assert (i < length d)%nat as Hlt by by eapply lookup_lt_Some.
    rewrite insert_app_r_alt;
      rewrite length_fmap, length_take, Nat.min_l by lia; [|lia].
    rewrite Nat.sub_diag.
    rewrite (drop_S d kv i Hi). simpl.
    rewrite (take_S_r d i kv Hi), fmap_app. simpl.
    by rewrite <- app_assoc.
  Qed.

Lemma staged_all d : staged lp (length d) d = wrap_attr lp <$> d.
  Proof. unfold staged. by rewrite firstn_all, drop_all, app_nil_r. Qed.

Lemma wrap_attr_not_callable k v :
    callable v = false -> wrap_attr lp (k, v) = (k, v).
  Proof. unfold wrap_attr. simpl. by intros ->. Qed.

Lemma decorator_simple depth v h :
    callable v = true -> simple_attr v = true ->
    decorator lp (S depth) v h = (Returns (Wrapper lp v), h).
  Proof. by destruct v. Qed.

Lemma decorator_other depth v h :
    callable v = true -> isclass v = false ->
    isfunction v || ismethod v = false ->
    decorator lp (S depth) v h = (Raises ValueError, h).
  Proof. by destruct v. Qed.

Section OneClass.
Variables (c : nat) (cls : PyClass) (h : gmap nat PyClass).
Variable dec : pyobj -> gmap nat PyClass -> outcome pyobj * gmap nat PyClass.
Hypothesis Hnodup : NoDup (cls_dict cls).*1.
Hypothesis Hdec : forall v h',
      callable v = true -> simple_attr v = true ->
      dec v h' = (Returns (Wrapper lp v), h').

Let d := cls_dict cls.
Let at_stage (i : nat) : gmap nat PyClass :=
      <[c := with_dict cls (staged lp i d)]> h.

Lemma setattr_at_stage i k v0 :
      d !! i = Some (k, v0) ->
      setattr c k (wrap_attr lp (k, v0)).2 (at_stage i) = at_stage (S i).
    Proof.
      intros Hi. unfold setattr, at_stage.
      rewrite lookup_insert_eq. cbn [bases cls_dict with_dict].
      rewrite insert_insert_eq. f_equal. unfold with_dict. f_equal.
      rewrite (dict_set_insert _ i k v0).
      - by rewrite <- (staged_step i d (k, v0)).
      - by rewrite staged_keys.
      - rewrite staged_lookup. exact Hi.
    Qed.

Lemma decorate_items_cons i rest k v :
      d !! i = Some (k, v) ->
      decorate_items dec c (i :: rest) (at_stage i)
      = if callable v then
          match dec v (at_stage i) with
          | (Returns wrapped, h') =>
              decorate_items dec c rest (setattr c k wrapped h')
          | (Raises e, h') => (Raises e, h')
          end
        else decorate_items dec c rest (at_stage i).
    Proof.
      intros Hi. cbn [decorate_items].
      assert (at_stage i !! c ≫= (fun cls0 => cls_dict cls0 !! i)
              = Some (k, v)) as ->; [|done].
      unfold at_stage. rewrite lookup_insert_eq. cbn.
      by rewrite staged_lookup.
    Qed.

    (** The loop over positions [i .. i+n-1], all holding simple
        attributes. *)
Lemma decorate_items_simple n : forall i rest,
      (i + n <= length d)%nat ->
      Forall (fun kv => simple_attr kv.2 = true) (take n (drop i d)) ->
      decorate_items dec c (seq i n ++ rest) (at_stage i)
      = decorate_items dec c rest (at_stage (i + n)).
    Proof.
      induction n as [|n IH]; intros i rest Hlen Hsimple.
      - by rewrite Nat.add_0_r.
      - destruct (lookup_lt_is_Some_2 d i) as [[k v] Hi]; [lia|].
        rewrite (drop_S d (k, v) i Hi) in Hsimple.
        rewrite firstn_cons in Hsimple.
        apply Forall_cons in Hsimple as [Hv Hsimple]. cbn [snd] in Hv.
        cbn [seq app].
        rewrite (decorate_items_cons i _ k v Hi).
        replace (i + S n)%nat with (S i + n)%nat by lia.
        destruct (callable v) eqn:Hcall.
        + rewrite Hdec by done.
          pose proof (setattr_at_stage i k v Hi) as Hset.
          unfold wrap_attr in Hset. cbn [fst snd] in Hset.
          rewrite Hcall in Hset. rewrite Hset. apply IH; [lia|done].
        + assert (at_stage i = at_stage (S i)) as ->.
          { unfold at_stage. do 2 f_equal.
            rewrite <- (staged_step i d (k, v) Hi).
            rewrite wrap_attr_not_callable by done.
            symmetry. apply list_insert_id. by rewrite staged_lookup. }
          apply IH; [lia|done].
    Qed.

Hypothesis Hc : h !! c = Some cls.

Lemma at_stage_0 : at_stage 0 = h.
    Proof.
      unfold at_stage, staged. rewrite take_0, drop_0.
      apply insert_id. rewrite Hc. by destruct cls.
    Qed.

Lemma decorate_all_simple :
      Forall (fun kv => simple_attr kv.2 = true) d ->
      decorate_items dec c (seq 0 (length d)) h
      = (Returns tt, <[c := with_dict cls (wrap_attr lp <$> d)]> h).
    Proof.
      intros Hsimple. rewrite <- at_stage_0 at 1.
      rewrite <- (app_nil_r (seq 0 (length d))).
      rewrite decorate_items_simple.
      - cbn [decorate_items Nat.add]. unfold at_stage. fold d.
        by rewrite staged_all.
      - lia.
      - by rewrite drop_0, firstn_all.
    Qed.

Lemma decorate_until_other d1 k v d2 :
      d = d1 ++ (k, v) :: d2 ->
      Forall (fun kv => simple_attr kv.2 = true) d1 ->
      callable v = true ->
      dec v (at_stage (length d1)) = (Raises ValueError, at_stage (length d1)) ->
      decorate_items dec c (seq 0 (length d)) h
      = (Raises ValueError,
         <[c := with_dict cls ((wrap_attr lp <$> d1) ++ (k, v) :: d2)]> h).
    Proof.
      intros Hd Hsimple Hcall Hother. rewrite <- at_stage_0 at 1.
      assert (length d = length d1 + S (length d2))%nat as ->
        by (rewrite Hd, length_app; simpl; lia).
      rewrite seq_app, decorate_items_simple.
      - cbn [seq Nat.add].
        rewrite (decorate_items_cons (length d1) _ k v).
        + rewrite Hcall, Hother. unfold at_stage, staged.
          by rewrite Hd, take_app_length, drop_app_length.
        + by rewrite Hd, list_lookup_middle.
      - rewrite Hd, length_app. simpl. lia.
      - by rewrite drop_0, Hd, take_app_length.
    Qed.

End OneClass.

Lemma decorator_class depth c h :
    decorator lp (S depth) (Class c) h
    = match decorate_items (decorator lp depth) c
              (seq 0 match h !! c with
                     | Some cls => length (cls_dict cls)
                     | None => O
                     end) h with
      | (Returns _, h') => (Returns (Class c), h')
      | (Raises e, h') => (Raises e, h')
      end.
  Proof. done. Qed.

  (** C8 (as amended). Applied to a class all of whose directly-declared
      callable attributes are functions or methods, [decorator] replaces every
      one of them by its wrapper, mutates that class object in place and
      returns that same class object; every other class object, the bases
      among them, is left as it is, so inherited attributes stay unwrapped.
      If a directly-declared callable attribute is neither a function, a
      method nor a class, the application raises [ValueError], with the
      attributes before it already wrapped. *)
Theorem decorator_on_class depth c cls h :
    h !! c = Some cls ->
    NoDup (cls_dict cls).*1 ->
    (Forall (fun kv => simple_attr kv.2 = true) (cls_dict cls) ->
       decorator lp (S (S depth)) (Class c) h
       = (Returns (Class c),
          <[c := with_dict cls (wrap_attr lp <$> cls_dict cls)]> h)
       /\ forall b, b <> c ->
            (decorator lp (S (S depth)) (Class c) h).2 !! b = h !! b)
    /\ (forall d1 k v d2,
          cls_dict cls = d1 ++ (k, v) :: d2 ->
          Forall (fun kv => simple_attr kv.2 = true) d1 ->
          callable v = true -> isclass v = false ->
          isfunction v || ismethod v = false ->
          decorator lp (S (S depth)) (Class c) h
          = (Raises ValueError,
             <[c := with_dict cls ((wrap_attr lp <$> d1) ++ (k, v) :: d2)]> h)).
  Proof.
    intros Hc Hnodup. split.
    - intros Hsimple.
      assert (decorator lp (S (S depth)) (Class c) h
              = (Returns (Class c),
                 <[c := with_dict cls (wrap_attr lp <$> cls_dict cls)]> h))
        as Hrun.
      { rewrite decorator_class, Hc.
        rewrite (decorate_all_simple c cls h (decorator lp (S depth)));
          auto using decorator_simple. }
      split; [exact Hrun|].
      intros b Hb. rewrite Hrun. cbn [snd]. by rewrite lookup_insert_ne.
    - intros d1 k v d2 Hd Hsimple Hcall Hcls Hfun.
      rewrite decorator_class, Hc.
      rewrite (decorate_until_other c cls h (decorator lp (S depth))
                 Hnodup (decorator_simple depth) Hc d1 k v d2);
        auto using decorator_other.
  Qed.

End ClassDecoration.

(** The derived class of the examples. *)
Lemma decorator_on_class_witness :
  let lp := log_prints_defaults in
  let cls := {| bases := [1%nat];
                cls_dict := [("__init__"%string, Function [Print (lit "new")]);
                             ("label"%string, Data (PyInt 7));
                             ("run"%string, Function [Return (PyInt 1)])] |} in
  (example_classes !! 2%nat = Some cls
   /\ NoDup (cls_dict cls).*1
   /\ Forall (fun kv => simple_attr kv.2 = true) (cls_dict cls))
  /\ decorator lp 2 (Class 2) example_classes
     = (Returns (Class 2),
        <[2%nat := with_dict cls (wrap_attr lp <$> cls_dict cls)]>
          example_classes)
  /\ (decorator lp 2 (Class 2) example_classes).2 !! 1%nat
     = example_classes !! 1%nat.
Proof.
  intros lp cls.
  assert (example_classes !! 2%nat = Some cls) as Hc by reflexivity.
  assert (NoDup (cls_dict cls).*1) as Hnd.
  { apply NoDup_ListNoDup. repeat constructor; cbn; intuition discriminate. }
  assert (Forall (fun kv => simple_attr kv.2 = true) (cls_dict cls)) as Hs
    by (repeat constructor).
  destruct (proj1 (decorator_on_class lp 0 2 cls example_classes Hc Hnd) Hs)
    as [Hrun Hbase].
  split; [by repeat split|].
  split; [exact Hrun|].
  apply Hbase. discriminate.
Defined.

(** C8 as stated fails: on a class that declares a callable attribute which
    is no function, method or class, the application raises [ValueError] and
    returns no class; the attribute before it has been wrapped, the one after
    it has not. *)
Lemma decorator_other_callable_counterexample :
  let lp := log_prints_defaults in
  let r := decorator lp 5 (Class 3) example_classes in
  r.1 = Raises ValueError
  /\ r.1 <> Returns (Class 3)
  /\ cls_dict <$> (r.2 !! 3%nat)
     = Some [("run"%string, Wrapper lp (Function [Return (PyInt 1)]));
             ("make"%string, OtherCallable 0);
             ("stop"%string, Function [Return PyNone])].
Proof. vm_compute. repeat split. discriminate. Qed.

(** ** The wrapper around a function *)

Section Wrapping.
Context `{OsPath}.

Lemma extends_refl w : extends w w.
  Proof. intros id L HL. by exists L. Qed.

Lemma extends_same_objects w w' : objects w' = objects w -> extends w w'.
  Proof. intros Ho id L HL. exists L. by rewrite Ho. Qed.

Lemma extends_trans w1 w2 w3 : extends w1 w2 -> extends w2 w3 -> extends w1 w3.
  Proof.
    intros H12 H23 id L HL.
    destruct (H12 id L HL) as (L2 & HL2 & Ho2 & Hi2).
    destruct (H23 id L2 HL2) as (L3 & HL3 & Ho3 & Hi3).
    exists L3. split; [done|]. split; congruence.
  Qed.

Lemma invoke_run {A} id (m : M A) w L :
    objects w !! id = Some L ->
    invoke id m w
    = ((m {| self := L; sys_stdout := stdout w |}).1,
       {| stdout := sys_stdout (m {| self := L; sys_stdout := stdout w |}).2;
          objects := <[id := self (m {| self := L; sys_stdout := stdout w |}).2]>
                       (objects w);
          console := console w |}).
  Proof.
    intros HL. unfold invoke. rewrite HL.
    by destruct (m {| self := L; sys_stdout := stdout w |}).
  Qed.

Lemma extends_invoke {A} id (m : M A) w :
    keeps_identity m -> extends w (invoke id m w).2.
  Proof.
    intros Hm. destruct (objects w !! id) as [L|] eqn:HL.
    - rewrite (invoke_run id m w L HL). cbn [snd].
      intros id' L' HL'. cbn [objects].
      destruct (decide (id' = id)) as [->|Hne].
      + rewrite lookup_insert_eq. eexists. split; [done|].
        assert (L' = L) as -> by congruence.
        apply (Hm {| self := L; sys_stdout := stdout w |}).
      + rewrite lookup_insert_ne by done. by exists L'.
    - unfold invoke. rewrite HL. apply extends_refl.
  Qed.

Lemma write_keeps_identity m lvl ur p : keeps_identity (write m lvl ur p).
  Proof. intros s. by rewrite write_run. Qed.

Lemma enter_keeps_identity : keeps_identity Logger_enter.
  Proof.
    intros s. rewrite Logger_enter_run. cbn [snd self].
    by destruct (flushed_fields (self s)) as (-> & -> & _).
  Qed.

Lemma exit_keeps_identity exc : keeps_identity (Logger_exit exc).
  Proof.
    intros s. rewrite Logger_exit_run. cbn [snd self].
    by destruct (flushed_fields (self s)) as (-> & -> & _).
  Qed.

Lemma extends_stdout_write t w : extends w (stdout_write t w).2.
  Proof.
    unfold stdout_write. destruct (stdout w).
    - by apply extends_same_objects.
    - apply extends_invoke, write_keeps_identity.
  Qed.

Lemma extends_py_print t w : extends w (py_print t w).2.
  Proof.
    unfold py_print.
    pose proof (extends_stdout_write t w) as H1.
    destruct (stdout_write t w) as [[[]|e] w1]; cbn [snd] in *; [|done].
    eapply extends_trans; [exact H1|]. apply extends_stdout_write.
  Qed.

Lemma extends_exec b : forall w, extends w (exec b w).2.
  Proof.
    induction b as [|[t|t|e|v] b IH]; intros w; cbn [exec].
    - apply extends_refl.
    - pose proof (extends_py_print t w) as H1.
      destruct (py_print t w) as [[[]|e] w1]; cbn [snd] in *; [|done].
      eapply extends_trans; [exact H1|]. apply IH.
    - eapply extends_trans; [|apply IH]. by apply extends_same_objects.
    - apply extends_refl.
    - apply extends_refl.
  Qed.

Lemma get_logger_fresh lp w :
    logger_instance lp = None ->
    exists L,
      objects (get_logger lp w).2 !! (get_logger lp w).1 = Some L
      /\ ident L = (get_logger lp w).1
      /\ original_stdout L = stdout w
      /\ stdout (get_logger lp w).2 = stdout w
      /\ objects w !! (get_logger lp w).1 = None.
  Proof.
    intros Hnone. unfold get_logger. rewrite Hnone. cbn [fst snd objects stdout].
    eexists. rewrite lookup_insert_eq. split; [done|].
    repeat split.
    apply not_elem_of_dom, is_fresh.
  Qed.

Lemma get_logger_instance lp w id :
    logger_instance lp = Some id -> get_logger lp w = (id, w).
  Proof. intros Hsome. unfold get_logger. by rewrite Hsome. Qed.

Lemma extends_get_logger lp w : extends w (get_logger lp w).2.
  Proof.
    destruct (logger_instance lp) as [id|] eqn:Hi.
    - rewrite (get_logger_instance lp w id Hi). apply extends_refl.
    - destruct (get_logger_fresh lp w Hi) as (L & _ & _ & _ & _ & Hfresh).
      unfold get_logger in *. rewrite Hi in *. cbn [fst snd objects] in *.
      intros id' L' HL'. exists L'. split; [|done]. cbn [objects].
      rewrite lookup_insert_ne; [done|]. intros <-. congruence.
  Qed.

  (** The [with] block around a body that keeps the live objects. *)
Lemma with_logger_run id body w L :
    objects w !! id = Some L -> ident L = id ->
    (forall w0, extends w0 (body w0).2) ->
    let w2 := (invoke id Logger_enter w).2 in
    stdout w2 = LoggerStream id
    /\ (with_logger id body w).1 = (body w2).1
    /\ stdout (with_logger id body w).2 = original_stdout L
    /\ extends w (with_logger id body w).2.
  Proof.
    intros HL Hid Hbody w2. subst w2. unfold with_logger.
    pose proof (extends_invoke id Logger_enter w enter_keeps_identity) as Hext1.
    rewrite (invoke_run id Logger_enter w L HL) in *.
    rewrite Logger_enter_run in *. cbn [fst snd self sys_stdout stdout] in *.
    set (w2 := {| stdout := LoggerStream (ident L) |}) in *.
    split; [by rewrite Hid|].
    pose proof (Hbody w2) as Hext2.
    destruct (body w2) as [r w3]. cbn [fst snd] in *.
    assert (exists L3, objects w3 !! id = Some L3
                       /\ original_stdout L3 = original_stdout L)
      as (L3 & HL3 & Ho3).
    { destruct (Hext2 id (flushed L)) as (L3 & HL3 & Ho3 & _).
      - subst w2. cbn [objects]. by rewrite lookup_insert_eq.
      - exists L3. split; [done|].
        rewrite Ho3. by destruct (flushed_fields L) as (_ & -> & _). }
    assert (forall exc,
      invoke id (Logger_exit exc) w3
      = (Returns false,
         {| stdout := original_stdout L;
            objects := <[id := flushed L3]> (objects w3);
            console := console w3 |})) as Hexit.
    { intros exc. rewrite (invoke_run id (Logger_exit exc) w3 L3 HL3).
      rewrite Logger_exit_run. cbn [fst snd self sys_stdout]. by rewrite Ho3. }
    assert (forall exc, extends w (invoke id (Logger_exit exc) w3).2) as Hext3.
    { intros exc. eapply extends_trans; [exact Hext1|].
      eapply extends_trans; [exact Hext2|].
      apply extends_invoke, exit_keeps_identity. }
    destruct r as [v|e].
    - specialize (Hext3 None). rewrite (Hexit None) in *. done.
    - specialize (Hext3 (Some e)). rewrite (Hexit (Some e)) in *. done.
  Qed.

Lemma extends_with_logger id body w :
    (forall w0, extends w0 (body w0).2) ->
    extends w (with_logger id body w).2.
  Proof.
    intros Hbody. destruct (objects w !! id) as [L|] eqn:HL.
    - unfold with_logger.
      pose proof (extends_invoke id Logger_enter w enter_keeps_identity) as H1.
      destruct (invoke id Logger_enter w) as [[i|e] w1]; cbn [snd] in *;
        [|done].
      pose proof (Hbody w1) as H2.
      destruct (body w1) as [[v|e] w2]; cbn [snd] in *.
      + pose proof (extends_invoke id (Logger_exit None) w2
                      (exit_keeps_identity None)) as H3.
        destruct (invoke id (Logger_exit None) w2) as [[b|e] w3];
          cbn [snd] in *; eauto using extends_trans.
      + pose proof (extends_invoke id (Logger_exit (Some e)) w2
                      (exit_keeps_identity (Some e))) as H3.
        destruct (invoke id (Logger_exit (Some e)) w2) as [[[]|e'] w3];
          cbn [snd] in *; eauto using extends_trans.
    - unfold with_logger, invoke. rewrite HL. apply extends_refl.
  Qed.

Lemma extends_call obj : forall w, extends w (call obj w).2.
  Proof.
    induction obj as [v|b|b|c|n|lp obj IH]; intros w; cbn [call];
      try apply extends_refl; try apply extends_exec.
    unfold wrapper.
    pose proof (extends_get_logger lp w) as H1.
    destruct (get_logger lp w) as [id w1]. cbn [snd] in H1.
    eapply extends_trans; [exact H1|]. by apply extends_with_logger.
  Qed.

  (** C9 (as amended). A call of the wrapper that [log_prints] puts around a
      callable redirects [sys.stdout] into a [Logger] before the callable
      runs, returns the callable's result or lets its error through
      unchanged, and afterwards, in either case, has set [sys.stdout] to the
      target that [Logger] saved when it was made. When the wrapper makes the
      [Logger] itself (no [logger_instance]) that is the target in place
      before the call; with a [logger_instance] it is the target in place
      when that instance was constructed. *)
Theorem wrapper_redirects_and_restores lp obj w :
    let r := wrapper lp (call obj) w in
    (logger_instance lp = None ->
       let id := (get_logger lp w).1 in
       let w2 := (invoke id Logger_enter (get_logger lp w).2).2 in
       stdout w2 = LoggerStream id
       /\ r.1 = (call obj w2).1
       /\ stdout r.2 = stdout w)
    /\ (forall id L,
          logger_instance lp = Some id ->
          objects w !! id = Some L -> ident L = id ->
          let w2 := (invoke id Logger_enter w).2 in
          stdout w2 = LoggerStream id
          /\ r.1 = (call obj w2).1
          /\ stdout r.2 = original_stdout L
          /\ (original_stdout L = stdout w -> stdout r.2 = stdout w)).
  Proof.
    cbv zeta. unfold wrapper. split.
    - intros Hnone.
      destruct (get_logger_fresh lp w Hnone) as (L & HL & Hid & Ho & _).
      destruct (get_logger lp w) as [id w1]. cbn [fst snd] in *.
      destruct (with_logger_run id (call obj) w1 L HL Hid (extends_call obj))
        as (H1 & H2 & H3 & _).
      split; [exact H1|]. split; [exact H2|]. by rewrite H3.
    - intros id L Hsome HL Hid.
      rewrite (get_logger_instance lp w id Hsome).
      destruct (with_logger_run id (call obj) w L HL Hid (extends_call obj))
        as (H1 & H2 & H3 & _).
      split; [exact H1|]. split; [exact H2|]. split; [exact H3|].
      intros <-. exact H3.
  Qed.

End Wrapping.

(** A function that prints and then raises, wrapped with the defaults, called
    in a process that has no [Logger] yet. *)
Lemma wrapper_redirects_and_restores_witness :
  let lp := log_prints_defaults in
  let obj := Function [Print (lit "hi"); Raise (UserError 1)] in
  logger_instance lp = None
  /\ stdout (wrapper (H := root_dir) lp (call (H := root_dir) obj) bare_world).2
     = stdout bare_world.
Proof.
  intros lp obj.
  assert (logger_instance lp = None) as Hnone by reflexivity.
  split; [exact Hnone|].
  exact (proj2 (proj2 (proj1 (@wrapper_redirects_and_restores root_dir lp obj
                                bare_world) Hnone))).
Defined.

(** C9 as stated fails with a [logger_instance] made under another target:
    the call returns the result, but [sys.stdout], which was [Console 1]
    before the call, is [Console 0] after it. *)
Lemma wrapper_restores_saved_target_counterexample :
  let w := @stale_world root_dir in
  let r := wrapper (H := root_dir) (log_prints_with 1)
             (call (H := root_dir)
                (Function [Print (lit "hi"); Return (PyInt 7)])) w in
  r.1 = Returns (PyInt 7)
  /\ stdout w = Console 1
  /\ stdout r.2 = Console 0
  /\ stdout r.2 <> stdout w.
Proof. vm_compute. repeat split. discriminate. Qed.

(** What the wrapped call of the witness does: the printed line reaches the
    core of the new [Logger], the error comes out, the terminal is back. *)
Example wrapper_captures_print :
  let obj := Function [Print (lit "hi"); Raise (UserError 1)] in
  let r := wrapper (H := root_dir) log_prints_defaults
             (call (H := root_dir) obj) bare_world in
  r.1 = Raises (UserError 1)
  /\ stdout r.2 = Console 0
  /\ (log_messages ∘ core <$> objects r.2 !! 0%nat)
     = Some [lit "hi" ++ [LF]]
  /\ console r.2 = [].
Proof. vm_compute. repeat split. Qed.


(** * Further properties of the code *)

(** ** [write]: errors, conservation, shape of the messages *)

Section WriteMore.
Context `{OsPath}.

Lemma write_nothing_raises s lvl ur p :
  _buffer (self s) = [] -> write [] lvl ur p s = (Raises IndexError, s).
Proof.
  intros Hb. rewrite write_run, Hb. cbn [app]. f_equal.
  unfold written. rewrite Hb. cbn [app].
  change (kept_split []) with (@nil pystr, @nil char). cbn [fst snd line_calls].
  rewrite add_calls_nil. destruct s as [l t]. cbn [self sys_stdout] in *.
  f_equal. destruct l. cbn in *. by subst.
Qed.

(** [write] raises (an [IndexError], from [lines.pop()] on an empty list)
    when buffer and message are both empty, and then leaves the object as it
    was; with a non-empty message, or content in the buffer, it returns. *)
Theorem write_empty_raises s lvl ur p :
  _buffer (self s) = [] ->
  write [] lvl ur p s = (Raises IndexError, s)
  /\ (forall c m, (write (c :: m) lvl ur p s).1 = Returns tt)
  /\ (forall s' m, _buffer (self s') <> [] ->
         (write m lvl ur p s').1 = Returns tt).
Proof.
  intros Hb. split; [|split].
  - by apply write_nothing_raises.
  - intros c m. rewrite write_run, Hb. done.
  - intros s' m Hs'. rewrite write_run. cbn [fst].
    destruct (_buffer (self s')); done.
Qed.

Lemma scan_concat acc t : concat (scan acc t).1 ++ (scan acc t).2 = acc ++ t.
Proof.
  revert acc t. apply (splitlines_from_cases (fun acc t =>
    concat (scan acc t).1 ++ (scan acc t).2 = acc ++ t)).
  - intros acc. rewrite scan_nil. cbn. by rewrite app_nil_r.
  - intros acc c d rest Hc Hd IH. rewrite scan_CRLF by done.
    cbn [fst snd concat]. rewrite <- !app_assoc, IH. done.
  - intros acc c d rest Hc Hd IH. rewrite scan_CR by done.
    cbn [fst snd concat]. rewrite <- !app_assoc, IH. done.
  - intros acc c Hc.
    by rewrite scan_end by auto using is_CR_linebreak, is_CR_not_LF.
  - intros acc c rest Hc Hb IH. destruct rest as [|x rest].
    + destruct (is_LF c) eqn:Hlf.
      * rewrite scan_LF_end by done. cbn. by rewrite !app_nil_r.
      * by rewrite scan_end.
    + rewrite scan_break by done.
      cbn [fst snd concat]. rewrite <- !app_assoc, IH. done.
  - intros acc c rest Hb IH. rewrite scan_plain by done.
    rewrite IH. by rewrite <- app_assoc.
Qed.

Lemma kept_split_concat t : concat (kept_split t).1 ++ (kept_split t).2 = t.
Proof. rewrite kept_split_scan. apply scan_concat. Qed.

Lemma writes_calls_concat calls : forall s,
  concat (log_messages (writes_calls (_buffer (self s)) (use_rank (self s)) calls))
    ++ _buffer (self (writes calls s))
  = _buffer (self s) ++ concat (map w_message calls).
Proof.
  induction calls as [|c cs IH]; intros s.
  - cbn. by rewrite app_nil_r.
  - cbn [writes writes_calls map concat]. rewrite write_run. cbn [snd].
    set (s1 := {| self := written _ _ _ _ (self s) |}).
    rewrite log_messages_app, log_messages_line_calls, concat_app.
    change (writes_calls (kept_split (_buffer (self s) ++ w_message c)).2
              (use_rank (self s)))
      with (writes_calls (_buffer (self s1)) (use_rank (self s1))).
    rewrite <- app_assoc, (IH s1).
    change (_buffer (self s1))
      with ((kept_split (_buffer (self s) ++ w_message c)).2).
    by rewrite !app_assoc, kept_split_concat.
Qed.

(** No character is lost, duplicated or moved: after any sequence of [write]
    calls, the messages passed to the core since the start, joined, followed
    by the buffer, are the old buffer followed by the joined input; after a
    closing [flush] the messages alone are. *)
Theorem writes_conserve_text s calls :
  let s1 := writes calls s in
  let s2 := (flush s1).2 in
  concat (log_messages (core (self s1))) ++ _buffer (self s1)
  = concat (log_messages (core (self s)))
    ++ _buffer (self s) ++ concat (map w_message calls)
  /\ concat (log_messages (core (self s2)))
     = concat (log_messages (core (self s)))
       ++ _buffer (self s) ++ concat (map w_message calls).
Proof.
  intros s1 s2.
  assert (concat (log_messages (core (self s1))) ++ _buffer (self s1)
          = concat (log_messages (core (self s)))
            ++ _buffer (self s) ++ concat (map w_message calls)) as Hkeep.
  { subst s1. destruct (writes_run calls s) as (-> & _ & _).
    rewrite log_messages_app, concat_app, <- app_assoc.
    by rewrite writes_calls_concat. }
  split; [exact Hkeep|].
  subst s2. rewrite flush_run. cbn [snd self].
  rewrite flushed_core, !log_messages_app, !concat_app, <- Hkeep.
  f_equal.
  destruct (_buffer (self s1)); cbn; by rewrite ?app_nil_r.
Qed.

Lemma scan_ends_in_boundary acc t : Forall ends_in_boundary (scan acc t).1.
Proof.
  assert (forall a c, is_linebreak c = true -> ends_in_boundary (a ++ [c]))
    as Hsnoc.
  { intros a c Hc. unfold ends_in_boundary. by rewrite last_snoc. }
  revert acc t. apply (splitlines_from_cases (fun acc t =>
    Forall ends_in_boundary (scan acc t).1)).
  - intros acc. rewrite scan_nil. constructor.
  - intros acc c d rest Hc Hd IH. rewrite scan_CRLF by done.
    constructor; [|done].
    change (acc ++ [c; d]) with (acc ++ [c] ++ [d]). rewrite app_assoc.
    apply Hsnoc. by apply is_LF_linebreak.
  - intros acc c d rest Hc Hd IH. rewrite scan_CR by done.
    constructor; [|done]. apply Hsnoc. by apply is_CR_linebreak.
  - intros acc c Hc.
    rewrite scan_end by auto using is_CR_linebreak, is_CR_not_LF.
    constructor.
  - intros acc c rest Hc Hb IH. destruct rest as [|x rest].
    + destruct (is_LF c) eqn:Hlf.
      * rewrite scan_LF_end by done. repeat constructor. by apply Hsnoc.
      * rewrite scan_end by done. constructor.
    + rewrite scan_break by done. constructor; [|done]. by apply Hsnoc.
  - intros acc c rest Hb IH. by rewrite scan_plain.
Qed.

Lemma writes_calls_end_in_boundary calls : forall b ur,
  Forall ends_in_boundary (log_messages (writes_calls b ur calls)).
Proof.
  induction calls as [|c cs IH]; intros b ur; cbn [writes_calls].
  - constructor.
  - rewrite log_messages_app, log_messages_line_calls.
    apply Forall_app. split; [|apply IH].
    rewrite kept_split_scan. apply scan_ends_in_boundary.
Qed.

(** [write] never passes on a partial line: every message a sequence of
    [write] calls hands to the core is non-empty and ends in a line
    boundary. *)
Theorem written_messages_end_in_boundary s calls :
  let new := writes_calls (_buffer (self s)) (use_rank (self s)) calls in
  core (self (writes calls s)) = core (self s) ++ new
  /\ Forall ends_in_boundary (log_messages new)
  /\ Forall (fun m => m <> []) (log_messages new).
Proof.
  intros new. subst new.
  destruct (writes_run calls s) as (Hcore & _ & _).
  split; [exact Hcore|].
  pose proof (writes_calls_end_in_boundary calls (_buffer (self s))
                (use_rank (self s))) as Hends.
  split; [exact Hends|].
  eapply Forall_impl; [exact Hends|].
  intros m Hm ->. exact Hm.
Qed.

End WriteMore.

(** A fresh object. *)
Lemma write_empty_raises_witness :
  _buffer (self (@app_logger root_dir)) = []
  /\ write (H := root_dir) [] NOTSET false None (@app_logger root_dir)
     = (Raises IndexError, @app_logger root_dir).
Proof.
  assert (_buffer (self (@app_logger root_dir)) = []) as Hb by reflexivity.
  split; [exact Hb|].
  exact (proj1 (@write_empty_raises root_dir (@app_logger root_dir)
                  NOTSET false None Hb)).
Defined.

(** ** [print] while [sys.stdout] is a [Logger] *)

Section Printing.
Context `{OsPath}.

Lemma kept_split_plain t : plain t -> kept_split t = ([], t).
Proof.
  intros Ht. rewrite kept_split_scan.
  rewrite <- (app_nil_r t) at 1.
  by rewrite (scan_plain_prefix t Ht [] []), scan_nil.
Qed.

Lemma kept_split_plain_LF t : plain t -> kept_split (t ++ [LF]) = ([t ++ [LF]], []).
Proof.
  intros Ht. rewrite kept_split_scan.
  rewrite (scan_plain_prefix t Ht [] [LF]). by apply scan_LF_end.
Qed.

Lemma set_buffer_same l : set_buffer (_buffer l) l = l.
Proof. by destruct l. Qed.

Lemma write_run_nonempty m lvl ur p s :
  _buffer (self s) ++ m <> [] ->
  write m lvl ur p s
  = (Returns tt, {| self := written m lvl ur p (self s);
                    sys_stdout := sys_stdout s |}).
Proof.
  intros Hne. rewrite write_run. by destruct (_buffer (self s) ++ m).
Qed.

(** While [sys.stdout] is a [Logger] whose buffer is empty, [print(t)] for a
    non-empty text without line boundaries (that is [sys.stdout.write(t)],
    then [sys.stdout.write('\n')]) passes to that [Logger]'s core exactly
    one message, [t] followed by the newline, at NOTSET level, leaves the
    buffer empty again, writes nothing to any other target and leaves
    [sys.stdout] alone. *)
Theorem print_line_under_redirect w id L t :
  objects w !! id = Some L -> stdout w = LoggerStream id ->
  _buffer L = [] -> plain t -> t <> [] ->
  py_print t w
  = (Returns tt,
     {| stdout := stdout w;
        objects :=
          <[id := add_calls [CppLog (t ++ [LF]) NOTSET (use_rank L) (Some [])]
                            L]> (objects w);
        console := console w |}).
Proof.
  intros HL Hout Hbuf Hplain Hne.
  set (L1 := written t NOTSET false None L).
  assert (L1 = set_buffer t L) as HL1.
  { subst L1. unfold written. rewrite Hbuf. cbn [app].
    rewrite (kept_split_plain t Hplain). cbn [fst snd line_calls].
    by rewrite add_calls_nil. }
  set (w1 := {| stdout := LoggerStream id;
                objects := <[id := L1]> (objects w);
                console := console w |}).
  assert (stdout_write t w = (Returns tt, w1)) as Hfirst.
  { unfold stdout_write. rewrite Hout.
    rewrite (invoke_run id _ w L HL), write_run_nonempty
      by (cbn [self]; rewrite Hbuf; done).
    by rewrite Hout. }
  assert (objects w1 !! id = Some L1) as HL1'
    by (subst w1; cbn [objects]; by rewrite lookup_insert_eq).
  unfold py_print. rewrite Hfirst.
  unfold stdout_write. cbn [stdout w1].
  rewrite (invoke_run id _ w1 L1 HL1'), write_run_nonempty
    by (cbn [self]; by destruct (_buffer L1)).
  cbn [fst snd self sys_stdout stdout objects console w1].
  rewrite Hout. do 2 f_equal.
  rewrite insert_insert_eq. f_equal.
  unfold written. rewrite HL1. cbn [_buffer set_buffer use_rank].
  rewrite (kept_split_plain_LF t Hplain). cbn [fst snd line_calls].
  rewrite orb_false_r. unfold add_calls. cbn.
  destruct L. cbn in *. by subst.
Qed.

(** While [sys.stdout] is a [Logger] whose buffer is empty (as it is right
    after [redirect_print]), writing the empty string to [sys.stdout], the
    first thing [print('')] or [print(end='')] does, raises [IndexError]
    and changes nothing. *)
Theorem print_empty_raises w id L :
  objects w !! id = Some L -> stdout w = LoggerStream id ->
  _buffer L = [] ->
  stdout_write [] w = (Raises IndexError, w)
  /\ py_print [] w = (Raises IndexError, w).
Proof.
  intros HL Hout Hbuf.
  assert (stdout_write [] w = (Raises IndexError, w)) as Hw.
  { unfold stdout_write. rewrite Hout.
    rewrite (invoke_run id _ w L HL).
    rewrite (write_nothing_raises {| self := L; sys_stdout := stdout w |}
               NOTSET false None Hbuf).
    cbn [fst snd self sys_stdout].
    rewrite insert_id by done. by destruct w. }
  split; [exact Hw|].
  unfold py_print. by rewrite Hw.
Qed.

End Printing.

(** The process after [redirect_print] on a fresh object. *)
Lemma print_line_under_redirect_witness :
  let w := {| stdout := LoggerStream 1;
              objects := {[ 1%nat := self (@app_logger root_dir) ]};
              console := [] |} in
  (objects w !! 1%nat = Some (self (@app_logger root_dir))
   /\ stdout w = LoggerStream 1
   /\ _buffer (self (@app_logger root_dir)) = []
   /\ plain (lit "hi") /\ lit "hi" <> [])
  /\ (py_print (H := root_dir) (lit "hi") w).1 = Returns tt.
Proof.
  intros w.
  assert (objects w !! 1%nat = Some (self (@app_logger root_dir))) as HL
    by reflexivity.
  assert (plain (lit "hi")) as Hplain by (repeat constructor).
  assert (lit "hi" <> []) as Hne by discriminate.
  split; [by repeat split|].
  by rewrite (@print_line_under_redirect root_dir w 1
                (self (@app_logger root_dir)) (lit "hi")
                HL eq_refl eq_refl Hplain Hne).
Defined.

Lemma print_empty_raises_witness :
  let w := {| stdout := LoggerStream 1;
              objects := {[ 1%nat := self (@app_logger root_dir) ]};
              console := [] |} in
  (objects w !! 1%nat = Some (self (@app_logger root_dir))
   /\ stdout w = LoggerStream 1
   /\ _buffer (self (@app_logger root_dir)) = [])
  /\ py_print (H := root_dir) [] w = (Raises IndexError, w).
Proof.
  intros w.
  assert (objects w !! 1%nat = Some (self (@app_logger root_dir))) as HL
    by reflexivity.
  split; [by repeat split|].
  exact (proj2 (@print_empty_raises root_dir w 1
                  (self (@app_logger root_dir)) HL eq_refl eq_refl)).
Defined.

(** ** Invariants over all operations *)

Section Operations.
Context `{OsPath}.

Lemma quiet_app cs1 cs2 : quiet cs1 -> quiet cs2 -> quiet (cs1 ++ cs2).
Proof. intros H1 H2. apply Forall_app. by split. Qed.

Lemma config_after_quiet cfg cs : quiet cs -> Core.config_after cfg cs = cfg.
Proof.
  induction 1 as [|c cs Hc _ IH]; [done|].
  destruct c; simpl in *; done.
Qed.

Lemma quiet_line_calls lines lvl ur p : quiet (line_calls lines lvl ur p).
Proof.
  revert p. induction lines as [|line rest IH]; intros p; cbn [line_calls].
  - constructor.
  - constructor; [done|apply IH].
Qed.

(** What [flush] adds to the trace. *)
Lemma flushed_quiet l :
  exists cs, core (flushed l) = core l ++ cs /\ quiet cs
             /\ core_config (flushed l) = core_config l.
Proof.
  eexists. split; [apply flushed_core|]. split.
  - destruct (truth (_buffer l)); repeat constructor.
  - by destruct (flushed_fields l) as (_ & _ & ->).
Qed.

(** Every operation but [reconfigure] only appends calls that leave the
    core's configuration alone, and does not touch the configuration fields
    of the object. *)
Lemma step_quiet o s :
  (forall a, o <> OpReconfigure a) ->
  exists cs, core (self (step o s)) = core (self s) ++ cs /\ quiet cs
             /\ core_config (self (step o s)) = core_config (self s).
Proof.
  intros Hnot.
  destruct (flushed_quiet (self s)) as (cs1 & Hc1 & Hq1 & Hf1).
  destruct o as [c| |lvl args sep e ur p|lvl args sep e ur p|a| | | | | |];
    unfold step;
    rewrite ?write_run, ?flush_run, ?redirect_print_run, ?reset_print_run,
      ?Logger_enter_run, ?Logger_exit_run; cbn [snd self];
    try (by exists cs1).
  - exists (line_calls (kept_split (_buffer (self s) ++ w_message c)).1
              (w_level c) (use_rank (self s) || w_use_rank c)
              (w_new_file_path c)).
    split; [done|]. split; [apply quiet_line_calls|done].
  - destruct sep as [sep|], e as [e|];
      try (exists []; rewrite app_nil_r; by repeat split; try constructor).
    exists [CppLog (join sep (map py_str args) ++ e) lvl
                   (use_rank (self s) || ur) (Some (abspath_or_empty p))].
    split; [done|]. split; [by repeat constructor|done].
  - unfold log_at.
    destruct sep as [sep|], e as [e|];
      try (exists []; rewrite app_nil_r; by repeat split; try constructor).
    exists [CppLog (join sep (map py_str args) ++ e) lvl
                   (use_rank (self s) || ur)
                   (Some (abspath_or_empty (Some (abspath_or_empty p))))].
    split; [done|]. split; [by repeat constructor|done].
  - by destruct (Hnot a).
  - rewrite close_run. cbn [snd self].
    destruct (flushed_quiet (flushed (self s))) as (cs2 & Hc2 & Hq2 & Hf2).
    exists (cs1 ++ cs2 ++ [CppClose]).
    cbn [core super_call]. rewrite Hc2, Hc1, <- !app_assoc.
    split; [done|]. split.
    + apply quiet_app; [done|]. apply quiet_app; [done|]. by repeat constructor.
    + change (core_config (super_call CppClose ?l)) with (core_config l).
      by rewrite Hf2, Hf1.
  - exists []. rewrite app_nil_r. by repeat split; try constructor.
Qed.

Lemma classic_op_reconfigure o :
  (exists a, o = OpReconfigure a) \/ (forall a, o <> OpReconfigure a).
Proof. destruct o; try (by right); left; by eexists. Qed.

Lemma reconfigured_config a l :
  core_config (reconfigured a l) = core_config (merge a l).
Proof.
  unfold reconfigured.
  change (core_config (super_call ?c ?l')) with (core_config l').
  by destruct (flushed_fields (merge a l)) as (_ & _ & ->).
Qed.

Lemma step_in_sync o s :
  (forall cfg0, Core.config_after cfg0 (core (self s)) = core_config (self s)) ->
  forall cfg0,
    Core.config_after cfg0 (core (self (step o s)))
    = core_config (self (step o s)).
Proof.
  intros Hsync cfg0.
  destruct (classic_op_reconfigure o) as [[a ->]|Hnot].
  - unfold step. rewrite reconfigure_run. cbn [snd self].
    rewrite reconfigured_core, reconfigured_config, !config_after_app.
    by destruct (truth (_buffer (self s))).
  - destruct (step_quiet o s Hnot) as (cs & -> & Hq & ->).
    by rewrite config_after_app, config_after_quiet.
Qed.

(** The attributes of the object and the configuration of the core never
    drift apart: after any sequence of operations on a new [Logger], the
    configuration last handed to the core (by the constructor or by
    [reconfigure]) is the one the object's attributes describe. *)
Theorem core_config_in_sync id a out out' ops cfg0 :
  let l := self (steps ops {| self := Logger_init id a out;
                              sys_stdout := out' |}) in
  Core.config_after cfg0 (core l) = core_config l.
Proof.
  cbv zeta.
  set (s0 := {| self := Logger_init id a out; sys_stdout := out' |}).
  assert (forall cfg, Core.config_after cfg (core (self s0))
                      = core_config (self s0)) as Hinit by done.
  clearbody s0. revert s0 Hinit cfg0.
  induction ops as [|o ops IH]; intros s0 Hinit cfg0; [apply Hinit|].
  cbn [steps foldl]. apply (IH (step o s0)).
  by apply step_in_sync.
Qed.

Lemma step_use_rank o s :
  use_rank (self s) = true -> use_rank (self (step o s)) = true.
Proof.
  intros Hur.
  destruct (classic_op_reconfigure o) as [[a ->]|Hnot].
  - unfold step. rewrite reconfigure_run. cbn [snd self].
    destruct (reconfigured_fields a (self s)) as (_ & _ & _ & _ & -> & _).
    unfold merge. cbn [use_rank]. rewrite Hur.
    by destruct (r_use_rank a) as [[]|].
  - destruct (step_quiet o s Hnot) as (cs & _ & _ & Hcfg).
    change (use_rank (self (step o s)))
      with (c_use_rank (core_config (self (step o s)))).
    by rewrite Hcfg.
Qed.

(** Once [use_rank] is on, no operation turns it off: [reconfigure] merges
    with [use_rank or self.use_rank], so even [reconfigure(use_rank=False)]
    keeps it, and no other method assigns it. *)
Theorem use_rank_never_turned_off ops s :
  use_rank (self s) = true -> use_rank (self (steps ops s)) = true.
Proof.
  revert s. induction ops as [|o ops IH]; intros s Hur; [done|].
  cbn [steps foldl]. apply (IH (step o s)). by apply step_use_rank.
Qed.

(** After [reconfigure] without a (non-zero) [log_rank], the object's
    [log_rank] is its rank: the assignment is
    [self.log_rank = log_rank or self.rank]. *)
Theorem reconfigure_log_rank_is_rank s a :
  truth (r_log_rank a) = false ->
  log_rank (self (reconfigure a s).2) = rank (self (reconfigure a s).2).
Proof.
  intros Hlr. rewrite reconfigure_run. cbn [snd self].
  destruct (reconfigured_fields a (self s))
    as (_ & _ & _ & _ & _ & -> & _ & _ & ->).
  unfold merge. cbn [log_rank rank].
  destruct (r_log_rank a) as [z|]; [|done].
  unfold or_default at 1. unfold truth, truthy_optional in Hlr.
  by rewrite Hlr.
Qed.

End Operations.

(** An object made with [use_rank=True], then [reconfigure(use_rank=False)]
    and a [flush]. *)
Lemma use_rank_never_turned_off_witness :
  let s := {| self := Logger_init (H := root_dir) 1 (docstring_args None)
                                  (Console 0);
              sys_stdout := Console 0 |} in
  let off := {| r_name := None; r_new_file_path := None;
                r_mode := Some (lit "a"); r_level := None;
                r_use_rank := Some false; r_rank := None;
                r_world_size := None; r_auto_detect_env := None;
                r_log_rank := None |} in
  use_rank (self s) = true
  /\ use_rank (self (steps (H := root_dir) [OpReconfigure off; OpFlush] s))
     = true.
Proof.
  intros s off.
  assert (use_rank (self s) = true) as Hur by reflexivity.
  split; [exact Hur|].
  exact (@use_rank_never_turned_off root_dir [OpReconfigure off; OpFlush] s Hur).
Defined.

(** An object with rank 5 and log_rank 3, then a [reconfigure] that supplies
    only a file path. *)
Lemma reconfigure_log_rank_is_rank_witness :
  let s := {| self := Logger_init (H := root_dir) 1
                        {| i_name := Some (lit "app"); i_file_path := None;
                           i_mode := lit "a"; i_level := NOTSET;
                           i_use_rank := true; i_rank := Some 5;
                           i_world_size := Some 8; i_auto_detect_env := None;
                           i_log_rank := Some 3 |} (Console 0);
              sys_stdout := Console 0 |} in
  let a := only_file_path (lit "b.log") in
  truth (r_log_rank a) = false
  /\ log_rank (self (reconfigure (H := root_dir) a s).2)
     = rank (self (reconfigure (H := root_dir) a s).2).
Proof.
  intros s a.
  assert (truth (r_log_rank a) = false) as Hlr by reflexivity.
  split; [exact Hlr|].
  exact (@reconfigure_log_rank_is_rank root_dir s a Hlr).
Defined.

(** ** The level methods, [close] and destruction *)

Section LevelsAndClose.
Context `{OsPath}.

(** [debug], [info], [warning], [error] and [critical] each pass exactly one
    message, the joined parts with [end] appended, at their own level, and
    leave the buffer alone. They resolve [new_file_path] themselves and hand
    the result to [log], which resolves it again: a path given to a level
    method goes through [os.path.abspath] twice; no path gives ''. *)
Theorem level_methods_resolve_twice s args sep e ur p :
  let msg := join sep (map py_str args) ++ e in
  let path := abspath_or_empty (Some (abspath_or_empty p)) in
  let after lvl :=
    (Returns tt,
     {| self := super_call (CppLog msg lvl (use_rank (self s) || ur) (Some path))
                           (self s);
        sys_stdout := sys_stdout s |}) in
  debug args (Some sep) (Some e) ur p s = after DEBUG
  /\ info args (Some sep) (Some e) ur p s = after INFO
  /\ warning args (Some sep) (Some e) ur p s = after WARNING
  /\ error args (Some sep) (Some e) ur p s = after ERROR
  /\ critical args (Some sep) (Some e) ur p s = after CRITICAL
  /\ (forall q, p = Some q -> truth q = true -> truth (abspath q) = true ->
        path = abspath (abspath q))
  /\ (truth p = false -> path = []).
Proof.
  cbv zeta. do 5 (split; [done|]). split.
  - intros q -> Hq Haq. cbn. rewrite Hq. cbn. by rewrite Haq.
  - intros Hp. destruct p as [q|]; [|done].
    change (truth (Some q)) with (truth q) in Hp.
    cbn [abspath_or_empty]. by rewrite Hp.
Qed.

Lemma count_close_app cs1 cs2 :
  count_close (cs1 ++ cs2) = (count_close cs1 + count_close cs2)%nat.
Proof.
  induction cs1 as [|c cs1 IH]; [done|].
  destruct c; cbn; by rewrite ?IH.
Qed.

Lemma count_close_flushed l : count_close (core (flushed l)) = count_close (core l).
Proof.
  rewrite flushed_core, !count_close_app.
  destruct (truth (_buffer l)); cbn; lia.
Qed.

Lemma flushed_flushed_core l : core (flushed (flushed l)) = core (flushed l) ++ [CppFlush].
Proof. by rewrite (flushed_core (flushed l)), flushed_buffer. Qed.

(** [close] flushes (the pending content, then the core, twice) and calls
    the core's [close] last; [__del__] runs [flush], [close] and then
    [reset_print], so it calls the core's [flush] once more after the core's
    [close]. Neither checks whether the object was closed before: [close]
    followed by destruction calls the core's [close] twice. *)
Theorem destruction_flushes_after_close s :
  core (self (close s).2) = core (flushed (flushed (self s))) ++ [CppClose]
  /\ core (self (Logger_del s).2)
     = core (self (close (flush s).2).2) ++ [CppFlush]
  /\ count_close (core (self (close s).2))
     = S (count_close (core (self s)))
  /\ count_close (core (self (Logger_del (close s).2).2))
     = S (S (count_close (core (self s)))).
Proof.
  rewrite !Logger_del_run, !close_run, flush_run. cbn [snd self].
  cbn [core super_call].
  split; [done|]. split.
  - rewrite (flushed_core (super_call _ _)).
    change (_buffer (super_call ?c ?l)) with (_buffer l).
    by rewrite flushed_buffer.
  - rewrite !count_close_flushed. cbn [core super_call].
    rewrite !count_close_app, !count_close_flushed. cbn [core super_call].
    rewrite !count_close_app, !count_close_flushed. cbn. lia.
Qed.

(** Where [os.path.abspath] is idempotent and never gives the empty string,
    the loop of [write], which resolves [new_file_path] anew for every line,
    hands every line of one [write] call the same path. *)
Theorem write_lines_same_path :
  (forall q, abspath (abspath q) = abspath q) ->
  (forall q, truth (abspath q) = true) ->
  forall lines lvl ur q,
    truth q = true ->
    line_calls lines lvl ur (Some q)
    = (fun line => CppLog line lvl ur (Some (abspath q))) <$> lines.
Proof.
  intros Hidem Hne lines lvl ur.
  induction lines as [|line rest IH]; intros q Hq; [done|].
  cbn [line_calls fmap list_fmap abspath_or_empty]. rewrite Hq.
  f_equal. rewrite (IH (abspath q)) by apply Hne.
  by rewrite Hidem.
Qed.

End LevelsAndClose.

Lemma root_abspath_cases q :
  root_abspath q = q /\ (exists r, q = 47%N :: r)
  \/ root_abspath q = 47%N :: q.
Proof.
  destruct q as [|c q]; [by right|].
  destruct (decide (c = 47%N)) as [->|Hc]; [left; split; [done|by eexists]|].
  right. destruct c as [|p]; [done|].
  do 7 (try destruct p as [p|p|]); try done.
Qed.

Lemma root_abspath_idempotent q : root_abspath (root_abspath q) = root_abspath q.
Proof.
  destruct (root_abspath_cases q) as [[Hq _]|Hq]; by rewrite Hq.
Qed.

Lemma root_abspath_truthy q : truth (root_abspath q) = true.
Proof.
  destruct (root_abspath_cases q) as [[Hq [r ->]]|Hq]; by rewrite Hq.
Qed.

(** In the root directory, [info("a", new_file_path="b.log")]. *)
Lemma level_methods_resolve_twice_witness :
  let p := Some (lit "b.log") in
  (p = Some (lit "b.log") /\ truth (lit "b.log") = true
   /\ truth (abspath (OsPath := root_dir) (lit "b.log")) = true)
  /\ abspath_or_empty (H := root_dir) (Some (abspath_or_empty (H := root_dir) p))
     = lit "/b.log".
Proof.
  intros p.
  destruct (@level_methods_resolve_twice root_dir (@app_logger root_dir)
              [PyStr (lit "a")] (lit " ") [LF] false p)
    as (_ & _ & _ & _ & _ & Hpath & _).
  split; [by repeat split|].
  exact (Hpath (lit "b.log") eq_refl eq_refl eq_refl).
Defined.

(** In the root directory, two lines written to "b.log". *)
Lemma write_lines_same_path_witness :
  ((forall q, abspath (OsPath := root_dir) (abspath (OsPath := root_dir) q)
              = abspath (OsPath := root_dir) q)
   /\ (forall q, truth (abspath (OsPath := root_dir) q) = true)
   /\ truth (lit "b.log") = true)
  /\ line_calls (H := root_dir) [lit "x" ++ [LF]; lit "y" ++ [LF]] INFO false
                 (Some (lit "b.log"))
     = [CppLog (lit "x" ++ [LF]) INFO false (Some (lit "/b.log"));
        CppLog (lit "y" ++ [LF]) INFO false (Some (lit "/b.log"))].
Proof.
  split; [split; [exact root_abspath_idempotent|
                  split; [exact root_abspath_truthy|reflexivity]]|].
  exact (@write_lines_same_path root_dir root_abspath_idempotent
           root_abspath_truthy [lit "x" ++ [LF]; lit "y" ++ [LF]] INFO false
           (lit "b.log") eq_refl).
Defined.

(** ** The decorator: twice, and on a class that refers to itself *)

Section DecoratorMore.
Variable lp : LogPrints.

Lemma decorator_class_simple depth c cls h :
  h !! c = Some cls -> NoDup (cls_dict cls).*1 ->
  Forall (fun kv => simple_attr kv.2 = true) (cls_dict cls) ->
  decorator lp (S (S depth)) (Class c) h
  = (Returns (Class c),
     <[c := with_dict cls (wrap_attr lp <$> cls_dict cls)]> h).
Proof.
  intros Hc Hnodup Hsimple. rewrite decorator_class, Hc.
  rewrite (decorate_all_simple lp c cls h (decorator lp (S depth)));
    auto using decorator_simple.
Qed.

Lemma wrap_attr_keys d : (wrap_attr lp <$> d).*1 = d.*1.
Proof. rewrite <- list_fmap_compose. by apply list_fmap_ext. Qed.

Lemma wrap_attr_simple d :
  Forall (fun kv => simple_attr kv.2 = true) (wrap_attr lp <$> d).
Proof.
  apply Forall_fmap, Forall_forall. intros [k v] _.
  unfold wrap_attr. cbn. by destruct v.
Qed.

(** Decorating is not idempotent: applied a second time to a class whose
    callable attributes are functions or methods, the decorator wraps every
    wrapper again, so a call of such an attribute redirects twice. *)
Theorem decorator_twice_wraps_twice depth c cls h :
  h !! c = Some cls -> NoDup (cls_dict cls).*1 ->
  Forall (fun kv => simple_attr kv.2 = true) (cls_dict cls) ->
  decorator lp (S (S depth)) (Class c)
            (decorator lp (S (S depth)) (Class c) h).2
  = (Returns (Class c),
     <[c := with_dict cls (wrap_attr lp <$> (wrap_attr lp <$> cls_dict cls))]> h).
Proof.
  intros Hc Hnodup Hsimple.
  rewrite (decorator_class_simple depth c cls h Hc Hnodup Hsimple). cbn [snd].
  rewrite (decorator_class_simple depth c
             (with_dict cls (wrap_attr lp <$> cls_dict cls))).
  - by rewrite insert_insert_eq.
  - by rewrite lookup_insert_eq.
  - cbn [cls_dict with_dict]. by rewrite wrap_attr_keys.
  - apply wrap_attr_simple.
Qed.



End DecoratorMore.

(** The derived class of the examples. *)
Lemma decorator_twice_wraps_twice_witness :
  let lp := log_prints_defaults in
  let cls := {| bases := [1%nat];
                cls_dict := [("__init__"%string, Function [Print (lit "new")]);
                             ("label"%string, Data (PyInt 7));
                             ("run"%string, Function [Return (PyInt 1)])] |} in
  (example_classes !! 2%nat = Some cls
   /\ NoDup (cls_dict cls).*1
   /\ Forall (fun kv => simple_attr kv.2 = true) (cls_dict cls))
  /\ (decorator lp 2 (Class 2) (decorator lp 2 (Class 2) example_classes).2).1
     = Returns (Class 2).
Proof.
  intros lp cls.
  assert (example_classes !! 2%nat = Some cls) as Hc by reflexivity.
  assert (NoDup (cls_dict cls).*1) as Hnd.
  { apply NoDup_ListNoDup. repeat constructor; cbn; intuition discriminate. }
  assert (Forall (fun kv => simple_attr kv.2 = true) (cls_dict cls)) as Hs
    by (repeat constructor).
  split; [by repeat split|].
  by rewrite (decorator_twice_wraps_twice lp 0 2 cls example_classes Hc Hnd Hs).
Defined.


(** ** A new [Logger] for every wrapped call; the benchmark loop *)

Section PerCall.
Context `{OsPath}.

Lemma invoke_dom {A} id (m : M A) w :
  dom (objects (invoke id m w).2) = dom (objects w).
Proof.
  destruct (objects w !! id) as [L|] eqn:HL.
  - rewrite (invoke_run id m w L HL). cbn [snd objects].
    apply dom_insert_lookup_L. by rewrite HL.
  - unfold invoke. by rewrite HL.
Qed.

Lemma stdout_write_dom t w : dom (objects (stdout_write t w).2) = dom (objects w).
Proof. unfold stdout_write. destruct (stdout w); [done|apply invoke_dom]. Qed.

Lemma py_print_dom t w : dom (objects (py_print t w).2) = dom (objects w).
Proof.
  unfold py_print. pose proof (stdout_write_dom t w) as H1.
  destruct (stdout_write t w) as [[[]|e] w1]; cbn [snd] in *; [|done].
  by rewrite stdout_write_dom.
Qed.

Lemma exec_dom b : forall w, dom (objects (exec b w).2) = dom (objects w).
Proof.
  induction b as [|[t|t|e|v] b IH]; intros w; cbn [exec]; try done.
  - pose proof (py_print_dom t w) as H1.
    destruct (py_print t w) as [[[]|e] w1]; cbn [snd] in *; [|done].
    by rewrite IH.
  - by rewrite IH.
Qed.

Lemma with_logger_dom id body w :
  (forall w0, dom (objects (body w0).2) = dom (objects w0)) ->
  dom (objects (with_logger id body w).2) = dom (objects w).
Proof.
  intros Hbody. unfold with_logger.
  pose proof (invoke_dom id Logger_enter w) as H1.
  destruct (invoke id Logger_enter w) as [[i|e] w1]; cbn [snd] in *; [|done].
  pose proof (Hbody w1) as H2.
  destruct (body w1) as [[v|e] w2]; cbn [snd] in *.
  - pose proof (invoke_dom id (Logger_exit None) w2) as H3.
    destruct (invoke id (Logger_exit None) w2) as [[b|e] w3];
      cbn [snd] in *; congruence.
  - pose proof (invoke_dom id (Logger_exit (Some e)) w2) as H3.
    destruct (invoke id (Logger_exit (Some e)) w2) as [[[]|e'] w3];
      cbn [snd] in *; congruence.
Qed.


Lemma benchmark_inner_run indices : forall s,
  core (self (benchmark_inner indices s))
  = core (self s)
    ++ ((fun i => CppLog (log_message_format i ++ [LF]) INFO
                         (use_rank (self s)) (Some []))
          <$> indices)
  /\ _buffer (self (benchmark_inner indices s)) = _buffer (self s)
  /\ use_rank (self (benchmark_inner indices s)) = use_rank (self s).
Proof.
  induction indices as [|i rest IH]; intros s.
  - cbn. by rewrite app_nil_r.
  - cbn [benchmark_inner]. unfold info, log_at. rewrite log_run. cbn [snd].
    destruct (IH {| self := logged [PyStr (log_message_format i)] (lit " ")
                              [LF] INFO false
                              (Some (abspath_or_empty None)) (self s);
                    sys_stdout := sys_stdout s |}) as (-> & -> & ->).
    cbn [self logged super_call core _buffer use_rank fmap list_fmap].
    rewrite <- app_assoc. cbn [app abspath_or_empty join map py_str].
    rewrite orb_false_r. done.
Qed.

(** benchmark.py: the timed body makes one core [log] call per iteration, in
    order, each the message "Log message <i>" with a newline, at INFO level
    and naming no file, and never touches the line buffer: [n] iterations
    are [n] calls. *)
Theorem benchmark_inner_logs_each_message n s :
  let s' := benchmark_inner (seq 0 n) s in
  core (self s')
  = core (self s)
    ++ ((fun i => CppLog (log_message_format i ++ [LF]) INFO
                         (use_rank (self s)) (Some []))
          <$> seq 0 n)
  /\ length (core (self s')) = (length (core (self s)) + n)%nat
  /\ _buffer (self s') = _buffer (self s).
Proof.
  cbv zeta. destruct (benchmark_inner_run (seq 0 n) s) as (Hcore & Hbuf & _).
  split; [exact Hcore|]. split; [|exact Hbuf].
  by rewrite Hcore, length_app, length_fmap, length_seq.
Qed.

End PerCall.


(** ** Order of direct and buffered output; the shape of the buffer *)

Section Ordering.
Context `{OsPath}.

(** [log] does not flush: a message logged while the buffer holds a fragment
    of an earlier [write] reaches the core before that fragment, which goes
    out only with the next [flush] (or the write that completes its line). *)
Theorem log_overtakes_pending s args sep e lvl ur p :
  _buffer (self s) <> [] ->
  let s1 := (log args (Some sep) (Some e) lvl ur p s).2 in
  let s2 := (flush s1).2 in
  core (self s2)
  = core (self s)
    ++ [CppLog (join sep (map py_str args) ++ e) lvl (use_rank (self s) || ur)
               (Some (abspath_or_empty p));
        CppLog (_buffer (self s)) NOTSET (use_rank (self s)) None;
        CppFlush].
Proof.
  intros Hbuf. cbv zeta. rewrite log_run, flush_run. cbn [snd self].
  rewrite flushed_core. unfold logged.
  cbn [core super_call _buffer use_rank].
  assert (truth (_buffer (self s)) = true) as ->
    by (by destruct (_buffer (self s))).
  by rewrite <- !app_assoc.
Qed.

Lemma step_held o s :
  held (_buffer (self s)) -> held (_buffer (self (step o s))).
Proof.
  intros Hheld.
  destruct o as [c| | | | | | | | | |]; unfold step;
    rewrite ?write_run, ?flush_run, ?reconfigure_run, ?redirect_print_run,
      ?reset_print_run, ?close_run, ?Logger_enter_run, ?Logger_exit_run;
    unfold reconfigured; cbn [snd self];
    try change (_buffer (super_call ?c ?l)) with (_buffer l);
    rewrite ?flushed_buffer; try apply held_nil.
  - apply kept_split_held.
  - by rewrite log_buffer.
  - unfold log_at. by rewrite log_buffer.
  - done.
Qed.

(** Whatever has been done to a [Logger], its buffer holds at most one
    unfinished line: [splitlines] would return the buffer content as a single
    piece, and that content does not end in a newline. So the buffer is
    always a fragment that a further [write] can complete. *)
Theorem buffer_always_one_fragment id a out out' ops :
  let b := _buffer (self (steps ops {| self := Logger_init id a out;
                                       sys_stdout := out' |})) in
  kept_split b = ([], b)
  /\ (b = [] \/ (splitlines b = [b] /\ endswith_LF b = false)).
Proof.
  cbv zeta.
  set (s0 := {| self := Logger_init id a out; sys_stdout := out' |}).
  assert (held (_buffer (self s0))) as Hinit by apply held_nil.
  clearbody s0. revert s0 Hinit.
  induction ops as [|o ops IH]; intros s0 Hinit.
  - cbn [steps foldl]. split; [exact Hinit|].
    unfold held, kept_split in Hinit.
    destruct (_buffer (self s0)) as [|c b] eqn:Eb; [by left|right].
    destruct (endswith_LF (c :: b)) eqn:Hend; [discriminate|].
    split; [|done].
    injection Hinit as Hrem Hlast.
    destruct (splitlines (c :: b)) as [|x l] eqn:Es using rev_ind;
      [by apply splitlines_from_nil in Es as [_ ?]|].
    clear IHl.
    rewrite last_snoc in Hlast. cbn in Hlast. subst x.
    rewrite removelast_last in Hrem. by subst l.
  - cbn [steps foldl]. apply (IH (step o s0)). by apply step_held.
Qed.

(** With a [logger_instance] the wrapper constructs nothing: the call leaves
    the set of live [Logger] objects as it was. *)
Theorem wrapper_reuses_instance lp id b w :
  logger_instance lp = Some id ->
  dom (objects (wrapper lp (call (Function b)) w).2) = dom (objects w).
Proof.
  intros Hsome. unfold wrapper.
  rewrite (get_logger_instance lp w id Hsome).
  apply with_logger_dom. intros w0. apply exec_dom.
Qed.

End Ordering.

(** A fresh object holding "x", then [log("a")]. *)
Lemma log_overtakes_pending_witness :
  let s := (write (H := root_dir) (lit "x") NOTSET false None
                  (@app_logger root_dir)).2 in
  let s1 := (log (H := root_dir) [PyStr (lit "a")] (Some (lit " ")) (Some [LF])
                 INFO false None s).2 in
  _buffer (self s) <> []
  /\ log_messages (core (self (flush s1).2)) = [lit "a" ++ [LF]; lit "x"].
Proof.
  intros s s1.
  assert (_buffer (self s) <> []) as Hbuf by discriminate.
  split; [exact Hbuf|].
  pose proof (@log_overtakes_pending root_dir s [PyStr (lit "a")] (lit " ")
                [LF] INFO false None Hbuf) as Hcore.
  exact (eq_trans (f_equal log_messages Hcore) eq_refl).
Defined.

(** The process in which a [Logger] was made earlier. *)
Lemma wrapper_reuses_instance_witness :
  logger_instance (log_prints_with 1) = Some 1%nat
  /\ dom (objects (wrapper (H := root_dir) (log_prints_with 1)
                      (call (H := root_dir) (Function [Print (lit "hi")]))
                      (@stale_world root_dir)).2)
     = dom (objects (@stale_world root_dir)).
Proof.
  split; [reflexivity|].
  exact (@wrapper_reuses_instance root_dir (log_prints_with 1) 1
           [Print (lit "hi")] (@stale_world root_dir) eq_refl).
Defined.
